(** * Message slot character device: a shallow embedding of [message_slot.c]

    The driver keeps a global linked list of [message_slot] records, one per
    minor number; each slot owns a linked list of [message_channel] records.
    A [struct file] carries one untyped pointer, [private_data], which
    [device_open] sets to the slot and [device_ioctl] overwrites with the
    selected channel.

    The embedding keeps the driver's shape: kernel memory is a store of
    typed objects addressed by index, pointers are addresses (or NULL), the
    [next] links are pointers into the store, and every file operation is a
    function from the kernel state to an outcome. Dereferencing a pointer at
    a struct type other than the one stored there has no defined result in
    C; the model signals it with the outcome [Undefined]. *)

From Stdlib Require Import ZArith Strings.Byte Lia.
From stdpp Require Import base tactics option numbers list.

Local Open Scope Z_scope.

Module MessageSlot.

(** ** Constants of the kernel headers *)

Definition ENOMEM : Z := 12.
Definition EWOULDBLOCK : Z := 11.
Definition EINVAL : Z := 22.
Definition ENOSPC : Z := 28.
Definition EMSGSIZE : Z := 90.

Definition MAJOR_NUM : Z := 235.

(** [_IOW(type, nr, size)] of <asm-generic/ioctl.h>: direction bit
    [_IOC_WRITE = 1] at bit 30, size at bit 16, type at bit 8, nr at bit 0. *)
Definition IOW (type nr size : Z) : Z :=
  Z.lor (Z.lor (Z.lor (Z.shiftl 1 30) (Z.shiftl type 8)) (Z.shiftl nr 0))
        (Z.shiftl size 16).

(** [sizeof(unsigned int)] is 4. *)
Definition MSG_SLOT_CHANNEL : Z := IOW MAJOR_NUM 0 4.

(** ** Machine integers *)

(** Conversion to [unsigned int] (32 bits). *)
Definition to_uint (x : Z) : Z := x mod 2 ^ 32.
(** Conversion to [unsigned long] / [size_t] (64 bits). *)
Definition to_ulong (x : Z) : Z := x mod 2 ^ 64.
(** Conversion of a [size_t] to [ssize_t] (64 bits, two's complement). *)
Definition to_ssize (x : Z) : Z :=
  let y := x mod 2 ^ 64 in if y <? 2 ^ 63 then y else y - 2 ^ 64.

(** [(1 << 20)], the per-slot channel limit. *)
Definition MAX_CHANNELS : Z := Z.shiftl 1 20.

(** ** Data *)

(** A pointer is an address of the object store, or NULL. *)
Definition ptr : Type := option nat.
Definition NULL : ptr := None.

Record message_channel : Type := Channel {
  channel_id : Z;            (* unsigned int *)
  message : list byte;       (* char message[128] *)
  message_len : Z;           (* size_t *)
  next : ptr                 (* struct message_channel * *)
}.

(** The field [next] of [struct message_slot] is called [slot_next] here,
    since Rocq has one name space for the projections of both records. *)
Record message_slot : Type := Slot {
  channels : ptr;            (* struct message_channel * *)
  channel_count : Z;         (* unsigned long *)
  minor : Z;                 (* int *)
  slot_next : ptr            (* struct message_slot * *)
}.

Inductive object : Type :=
  | OSlot (s : message_slot)
  | OChannel (c : message_channel).

(** [struct file], reduced to the one field the driver uses. *)
Record file : Type := File { private_data : ptr }.

(** What one call of [kmalloc] does: fail, or hand out a block whose bytes
    are whatever the memory held before ([junk], indexed by offset). *)
Inductive kmalloc_result : Type :=
  | KmFail
  | KmOk (junk : nat → byte).

Inductive printk_msg : Type :=
  | MsgOutOfMemory          (* "message_slot: Out of memory" *)
  | MsgExceededMaxChannels  (* "Exceeded maximum number of channels (2^20)." *)
  | MsgFailedAllocChannel.  (* "Failed to allocate memory for new channel." *)

(** The kernel state the driver touches: the object store, the global
    [slots] list head, the future behaviour of the allocator (one entry is
    consumed by each [kmalloc]; an exhausted list means no memory), and the
    kernel log. *)
Record kernel : Type := Kernel {
  heap : list object;
  slots : ptr;
  allocator : list kmalloc_result;
  klog : list printk_msg
}.

Definition set_heap (h : list object) (k : kernel) : kernel :=
  Kernel h (slots k) (allocator k) (klog k).
Definition set_slots (p : ptr) (k : kernel) : kernel :=
  Kernel (heap k) p (allocator k) (klog k).
Definition set_allocator (a : list kmalloc_result) (k : kernel) : kernel :=
  Kernel (heap k) (slots k) a (klog k).

(** ** Outcomes and the state monad of the driver *)

Inductive outcome (A : Type) : Type :=
  | Ret (x : A) (k : kernel)   (* the call returns [x], leaving state [k] *)
  | Undefined                  (* a pointer was dereferenced at the wrong type *)
  | Diverges.                  (* a list walk did not end (cyclic list) *)
Arguments Ret {A} x k.
Arguments Undefined {A}.
Arguments Diverges {A}.

Definition M (A : Type) : Type := kernel → outcome A.

Definition ret {A} (x : A) : M A := λ k, Ret x k.
Definition bind {A B} (f : A → M B) (m : M A) : M B :=
  λ k, match m k with
       | Ret x k' => f x k'
       | Undefined => Undefined
       | Diverges => Diverges
       end.

(** The monad is used through stdpp's [x ← m; f] and [m ;; f]. *)
#[global] Instance M_ret : MRet M := @ret.
#[global] Instance M_bind : MBind M := @bind.

Definition undefined {A} : M A := λ _, Undefined.
Definition diverges {A} : M A := λ _, Diverges.
(** The current object store. *)
Definition get_heap : M (list object) := λ k, Ret (heap k) k.
(** The global [slots]. *)
Definition get_slots : M ptr := λ k, Ret (slots k) k.
Definition put_slots (p : ptr) : M unit := λ k, Ret tt (set_slots p k).

Definition printk (m : printk_msg) : M unit :=
  λ k, Ret tt (Kernel (heap k) (slots k) (allocator k) (klog k ++ [m])).

(** Reading [*p] at type [struct message_slot]. Where [p] points to an
    object of the other struct type, the driver reads that object's bytes at
    the wrong type; what it does then depends on the layout and the contents
    of memory, and it may well return from the call. [Undefined] stands for
    all of that: a statement that assumes that a call returns says nothing
    of such a call. *)
Definition load_slot (a : nat) : M message_slot :=
  λ k, match heap k !! a with
       | Some (OSlot s) => Ret s k
       | _ => Undefined
       end.

(** Reading [*p] at type [struct message_channel]. *)
Definition load_channel (a : nat) : M message_channel :=
  λ k, match heap k !! a with
       | Some (OChannel c) => Ret c k
       | _ => Undefined
       end.

Definition store (a : nat) (o : object) : M unit :=
  λ k, Ret tt (set_heap (<[a := o]> (heap k)) k).

(** [kmalloc] followed by the caller's initialisation of the block. The
    fields the caller does not assign keep the block's junk. *)
Definition kmalloc (init : (nat → byte) → object) : M ptr :=
  λ k, match allocator k with
       | KmOk junk :: rest =>
           Ret (Some (length (heap k)))
               (Kernel (heap k ++ [init junk]) (slots k) rest (klog k))
       | KmFail :: rest => Ret NULL (set_allocator rest k)
       | [] => Ret NULL k
       end.

(** ** The byte transport *)

Definition zero : byte := x00.

(** [memset(dst, 0, sizeof(channel->message))]. *)
Definition memset_message : list byte := replicate 128 zero.

(** [copy_from_user(dst, src, n)]: [src] is the readable extent of the user
    buffer. The bytes that can be read are copied to the front of [dst]; the
    result is the number of bytes that could not be copied. *)
Definition copy_from_user (dst src : list byte) (n : Z) : list byte * Z :=
  let k := Nat.min (Z.to_nat n) (length src) in
  (take k src ++ drop k dst, n - Z.of_nat k).

(** [copy_to_user(dst, src, n)]: [writable] is the writable extent of the
    user buffer. The result is the bytes that reached the user buffer and
    the number of bytes that could not be copied. *)
Definition copy_to_user (writable : nat) (src : list byte) (n : Z)
  : list byte * Z :=
  let k := Nat.min (Z.to_nat n) writable in
  (take k src, n - Z.of_nat k).

(** ** device_open *)

Inductive walk : Type :=
  | Found (a : nat)
  | NotFound (link : option nat)
  | WalkUndefined
  | WalkDiverges.

(** The search loop of [device_open]. [link] is where [ptr] points: the
    [next] field of slot [a] ([Some a]) or the list head [&slots] ([None]);
    [cur] is [*ptr]. *)
Fixpoint find_slot (fuel : nat) (h : list object) (link : option nat)
    (cur : ptr) (mnr : Z) : walk :=
  match cur with
  | None => NotFound link
  | Some a =>
      match fuel with
      | O => WalkDiverges
      | S fuel' =>
          match h !! a with
          | Some (OSlot s) =>
              if minor s =? mnr then Found a
              else find_slot fuel' h (Some a) (slot_next s) mnr
          | _ => WalkUndefined
          end
      end
  end.

(** [*ptr = slot]. *)
Definition link_slot (link : option nat) (new : ptr) : M unit :=
  match link with
  | None => put_slots new
  | Some a =>
      s ← load_slot a;
      store a (OSlot (Slot (channels s) (channel_count s) (minor s) new))
  end.

(** [device_open(inode, file)]; the inode is given by its minor number.
    Returns the status and the file as the driver leaves it. *)
Definition device_open (mnr : Z) (f : file) : M (Z * file) :=
  h ← get_heap;
  head ← get_slots;
  match find_slot (S (length h)) h None head mnr with
  | WalkUndefined => undefined
  | WalkDiverges => diverges
  | Found a => ret (0, File (Some a))
  | NotFound link =>
      slot ← kmalloc (λ _, OSlot (Slot NULL 0 mnr NULL));
      match slot with
      | None => printk MsgOutOfMemory ;; ret (- ENOMEM, f)
      | Some _ => link_slot link slot ;; ret (0, File slot)
      end
  end.

(** ** get_or_create_channel *)

(** The search loop of [get_or_create_channel]: [Found a] when the channel
    at [a] has the id, [NotFound _] when the list ends. *)
Fixpoint find_channel (fuel : nat) (h : list object) (cur : ptr) (id : Z)
  : walk :=
  match cur with
  | None => NotFound None
  | Some a =>
      match fuel with
      | O => WalkDiverges
      | S fuel' =>
          match h !! a with
          | Some (OChannel c) =>
              if channel_id c =? id then Found a
              else find_channel fuel' h (next c) id
          | _ => WalkUndefined
          end
      end
  end.

Definition junk_message (junk : nat → byte) : list byte :=
  junk <$> seq 0 128.

(** [get_or_create_channel(slot, channel_id)], [slot] non-NULL. *)
Definition get_or_create_channel (slot : nat) (id : Z) : M ptr :=
  s ← load_slot slot;
  h ← get_heap;
  match find_channel (S (length h)) h (channels s) id with
  | WalkUndefined => undefined
  | WalkDiverges => diverges
  | Found a => ret (Some a)
  | NotFound _ =>
      if MAX_CHANNELS <=? channel_count s then
        printk MsgExceededMaxChannels ;; ret NULL
      else
        new ← kmalloc (λ junk,
                 OChannel (Channel id (junk_message junk) 0 (channels s)));
        match new with
        | None => printk MsgFailedAllocChannel ;; ret NULL
        | Some _ =>
            store slot (OSlot (Slot new (to_ulong (channel_count s + 1))
                                    (minor s) (slot_next s))) ;;
            ret new
        end
  end.

(** ** device_ioctl *)

Definition device_ioctl (f : file) (ioctl_num ioctl_param : Z)
  : M (Z * file) :=
  if negb (ioctl_num =? MSG_SLOT_CHANNEL) || (ioctl_param =? 0) then
    ret (- EINVAL, f)
  else
    match private_data f with
    | None => ret (- EINVAL, f)
    | Some slot =>
        channel ← get_or_create_channel slot (to_uint ioctl_param);
        match channel with
        | None => ret (- EINVAL, f)
        | Some _ => ret (0, File channel)
        end
    end.

(** ** device_write *)

(** [buf] is the readable extent of the user buffer, [count] the length the
    caller passes. *)
Definition device_write (f : file) (buf : list byte) (count : Z) : M Z :=
  match private_data f with
  | None => ret (- EINVAL)
  | Some a =>
      if (count =? 0) || (128 <? count) then ret (- EMSGSIZE)
      else
        channel ← load_channel a;
        let cleared := memset_message in
        let '(msg, rest) := copy_from_user cleared buf count in
        if negb (rest =? 0) then
          store a (OChannel (Channel (channel_id channel) msg
                                     (message_len channel) (next channel))) ;;
          ret (-1)
        else
          store a (OChannel (Channel (channel_id channel) msg
                                     count (next channel))) ;;
          ret (to_ssize count)
  end.

(** ** device_read *)

(** [writable] is the writable extent of the user buffer, [count] the size
    the caller passes. Returns the status and the bytes that reached the
    user buffer. The copy is taken from the 128 bytes of [message]: the
    model is that of the driver as long as [message_len] is at most 128,
    which every file operation maintains (see [kernel_ok]). *)
Definition device_read (f : file) (writable : nat) (count : Z)
  : M (Z * list byte) :=
  match private_data f with
  | None => ret (-1, [])
  | Some a =>
      channel ← load_channel a;
      if message_len channel =? 0 then ret (- EWOULDBLOCK, [])
      else if count <? message_len channel then ret (- ENOSPC, [])
      else
        let '(out, rest) :=
          copy_to_user writable (message channel) (message_len channel) in
        if negb (rest =? 0) then ret (-1, out)
        else ret (to_ssize (message_len channel), out)
  end.

(** ** Scenarios *)

(** The state after module load: nothing allocated, [slots == NULL]. The
    allocator's behaviour is a parameter. *)
Definition boot (alloc : list kmalloc_result) : kernel :=
  Kernel [] NULL alloc [].

(** An allocator that serves [n] requests with zero-filled blocks. *)
Definition plenty (n : nat) : list kmalloc_result :=
  replicate n (KmOk (λ _, zero)).

(** [open] on a new [struct file], whose [private_data] is NULL. *)
Definition open (mnr : Z) : M file :=
  r ← device_open mnr (File NULL); ret (r.2).

(** [ioctl(fd, MSG_SLOT_CHANNEL, id)], keeping the file. *)
Definition select_channel (f : file) (id : Z) : M file :=
  r ← device_ioctl f MSG_SLOT_CHANNEL id; ret (r.2).

(** [n] reads in a row with the same arguments. *)
Fixpoint reads (n : nat) (f : file) (writable : nat) (count : Z)
  : M (list (Z * list byte)) :=
  match n with
  | O => ret []
  | S n' =>
      r ← device_read f writable count;
      rs ← reads n' f writable count;
      ret (r :: rs)
  end.

(** Calls of [get_or_create_channel] on one slot, one per id. *)
Fixpoint create_channels (slot : nat) (ids : list Z) : M (list ptr) :=
  match ids with
  | [] => ret []
  | id :: ids' =>
      p ← get_or_create_channel slot id;
      ps ← create_channels slot ids';
      ret (p :: ps)
  end.

(** ** Well-formed channel lists *)

(** [chan_list h p cs]: following [next] from [p] in store [h] visits
    exactly the channels [cs] (address and contents) and ends at NULL. *)
Fixpoint chan_list (h : list object) (p : ptr)
    (cs : list (nat * message_channel)) : Prop :=
  match cs with
  | [] => p = NULL
  | (a, c) :: cs' =>
      p = Some a ∧ h !! a = Some (OChannel c) ∧ chan_list h (next c) cs'
  end.

Definition chan_ids (cs : list (nat * message_channel)) : list Z :=
  (λ ac, channel_id ac.2) <$> cs.

(** The invariant of a channel's message store. *)
Definition channel_ok (c : message_channel) : Prop :=
  length (message c) = 128%nat ∧ 0 ≤ message_len c ≤ 128.

(** The channel a write to [c] leaves behind: the buffer is cleared, the
    readable part of the first [count] bytes of [buf] is copied in, and the
    length is [len]. *)
Definition written (c : message_channel) (buf : list byte) (count len : Z)
  : message_channel :=
  let n := Nat.min (Z.to_nat count) (length buf) in
  Channel (channel_id c) (take n buf ++ drop n memset_message) len (next c).

(** The state after [get_or_create_channel] has created channel [id] in
    the slot [s] stored at address [slot], from a block holding [junk]. *)
Definition created (k : kernel) (slot : nat) (s : message_slot) (id : Z)
    (junk : nat → byte) (rest : list kmalloc_result) : kernel :=
  let new := length (heap k) in
  Kernel (<[slot := OSlot (Slot (Some new) (to_ulong (channel_count s + 1))
                                (minor s) (slot_next s))]>
            (heap k ++ [OChannel (Channel id (junk_message junk) 0 (channels s))]))
         (slots k) rest (klog k).

(** Every channel in the store satisfies the invariant. *)
Definition kernel_ok (k : kernel) : Prop :=
  ∀ a c, heap k !! a = Some (OChannel c) → channel_ok c.

Definition served (alloc : list kmalloc_result) (n : nat) : Prop :=
  ∃ junks rest, alloc = (KmOk <$> junks) ++ rest ∧ length junks = n.

(** ** A concrete state

    The state reached from [boot] by opening minor 0, selecting channel 7
    and writing [msg] (see [demo_reached]): one slot at address 0, one
    channel at address 1, and a file bound to that channel. *)
Definition demo_channel (msg : list byte) : message_channel :=
  Channel 7 (msg ++ replicate (128 - length msg) zero)
          (Z.of_nat (length msg)) NULL.

Definition demo_kernel (msg : list byte) : kernel :=
  Kernel [OSlot (Slot (Some 1%nat) 1 0 NULL); OChannel (demo_channel msg)]
         (Some 0%nat) [] [].

Definition demo_file : file := File (Some 1%nat).

(** "hello" *)
Definition hello : list byte := [x68; x65; x6c; x6c; x6f].

(** The state after the first open of minor 0 (see [one_slot_reached]),
    with an allocator that serves [n] more requests. *)
Definition one_slot (n : nat) : kernel :=
  Kernel [OSlot (Slot NULL 0 0 NULL)] (Some 0%nat) (plenty n) [].

(** The ids [1 .. 2^20]. *)
Definition all_ids : list Z := Z.of_nat <$> seq 1 (Z.to_nat MAX_CHANNELS).

Definition fresh_file : file := File (Some 0%nat).

(** [demo_kernel hello] after a write of 3 bytes from a user buffer that
    cannot be read: the bytes are cleared, the length is still 5. *)
Definition clobbered : kernel :=
  Kernel [OSlot (Slot (Some 1%nat) 1 0 NULL);
          OChannel (Channel 7 (replicate 128 zero) 5 NULL)]
         (Some 0%nat) [] [].

(** ** The registry of slots and the state as a whole *)

(** [slot_list h p ms]: following [next] from [p] in store [h] visits
    exactly the slots at the addresses of [ms], which have the minor
    numbers of [ms], and ends at NULL. *)
Fixpoint slot_list (h : list object) (p : ptr) (ms : list (nat * Z)) : Prop :=
  match ms with
  | [] => p = NULL
  | (a, m) :: ms' =>
      p = Some a ∧
      ∃ s, h !! a = Some (OSlot s) ∧ minor s = m ∧ slot_list h (slot_next s) ms'
  end.

(** The address whose [next] field ends the list: where [device_open]
    links a new slot ([None] is the list head [slots]). *)
Definition last_link (ms : list (nat * Z)) : option nat := fst <$> last ms.

(** Where the search of [device_open] ends when it started with [link]. *)
Definition end_link (link : option nat) (ms : list (nat * Z)) : option nat :=
  match last_link ms with Some b => Some b | None => link end.

(** The store after [device_open] has linked a new slot for [mnr] behind
    the list [ms]. *)
Definition linked (h : list object) (ms : list (nat * Z)) (mnr : Z)
  : list object :=
  let h' := h ++ [OSlot (Slot NULL 0 mnr NULL)] in
  match last_link ms with
  | None => h'
  | Some b =>
      match h' !! b with
      | Some (OSlot s) =>
          <[b := OSlot (Slot (channels s) (channel_count s) (minor s)
                             (Some (length h)))]> h'
      | _ => h'
      end
  end.

(** A slot's channel list is well formed, its ids are distinct, and
    [channel_count] is the number of its channels, at most [2^20]. *)
Definition slot_wf (h : list object) (s : message_slot) : Prop :=
  ∃ cs, chan_list h (channels s) cs ∧ NoDup (chan_ids cs) ∧
        channel_count s = Z.of_nat (length cs) ∧
        channel_count s ≤ MAX_CHANNELS.

(** The invariant of the kernel state: channels within their buffers, the
    slot list well formed with distinct minors, every slot well formed. *)
Definition kernel_wf (k : kernel) : Prop :=
  kernel_ok k ∧
  (∃ ms, slot_list (heap k) (slots k) ms ∧ NoDup ms.*2) ∧
  (∀ a s, heap k !! a = Some (OSlot s) → slot_wf (heap k) s).

(** An open file points to a live object. *)
Definition file_ok (k : kernel) (f : file) : Prop :=
  ∃ a, private_data f = Some a ∧ is_Some (heap k !! a).

(** ** Sequences of system calls

    The calls user programs make on the device, by file descriptor. [open]
    makes a new [struct file] with [private_data] NULL and installs it when
    [device_open] returns 0; a call on a descriptor that is not open does
    not reach the driver. *)
Inductive call : Type :=
  | Open (mnr : Z)
  | Ioctl (fd : nat) (ioctl_num ioctl_param : Z)
  | Write (fd : nat) (buf : list byte) (count : Z)
  | Read (fd : nat) (writable : nat) (count : Z).

Definition do_call (c : call) (fds : list file) : M (list file) :=
  match c with
  | Open mnr =>
      r ← device_open mnr (File NULL);
      ret (if r.1 =? 0 then fds ++ [r.2] else fds)
  | Ioctl fd num param =>
      match fds !! fd with
      | None => ret fds
      | Some f => r ← device_ioctl f num param; ret (<[fd := r.2]> fds)
      end
  | Write fd buf count =>
      match fds !! fd with
      | None => ret fds
      | Some f => device_write f buf count ;; ret fds
      end
  | Read fd writable count =>
      match fds !! fd with
      | None => ret fds
      | Some f => device_read f writable count ;; ret fds
      end
  end.

Fixpoint run (cs : list call) (fds : list file) : M (list file) :=
  match cs with
  | [] => ret fds
  | c :: cs' => fds' ← do_call c fds; run cs' fds'
  end.

(** The arguments of a call are within their C types where it matters:
    the [count] of a write is a [size_t]. *)
Definition call_ok (c : call) : Prop :=
  match c with
  | Write _ _ count => 0 ≤ count
  | _ => True
  end.

(** A call follows the protocol of the device in the state in which it is
    made: select-channel on a file that still points to its slot, write and
    read on a file that is bound to a channel, the [count] of a write being
    a [size_t]. *)
Definition call_allowed (c : call) (fds : list file) (k : kernel) : Prop :=
  match c with
  | Open _ => True
  | Ioctl fd _ _ =>
      ∀ f, fds !! fd = Some f →
           ∃ a s, private_data f = Some a ∧ heap k !! a = Some (OSlot s)
  | Write fd _ count =>
      0 ≤ count ∧
      ∀ f, fds !! fd = Some f →
           ∃ a c, private_data f = Some a ∧ heap k !! a = Some (OChannel c)
  | Read fd _ _ =>
      ∀ f, fds !! fd = Some f →
           ∃ a c, private_data f = Some a ∧ heap k !! a = Some (OChannel c)
  end.

(** Every call of the sequence follows the protocol in the state the calls
    before it have led to. *)
Fixpoint protocol (cs : list call) (fds : list file) (k : kernel) : Prop :=
  match cs with
  | [] => True
  | c :: cs' =>
      call_allowed c fds k ∧
      ∀ fds' k', do_call c fds k = Ret fds' k' → protocol cs' fds' k'
  end.

(** Open minor 0, select channel 7, write "hello". *)
Definition demo_calls : list call :=
  [Open 0; Ioctl 0 MSG_SLOT_CHANNEL 7; Write 0 hello 5].

(** [demo_kernel hello] after a second session has opened minor 0 and
    selected channel 8 (see [two_channels_reached]): channel 8 is at
    address 2, at the head of the slot's list. *)
Definition two_channels : kernel :=
  Kernel [OSlot (Slot (Some 2%nat) 2 0 NULL);
          OChannel (demo_channel hello);
          OChannel (Channel 8 (replicate 128 zero) 0 (Some 1%nat))]
         (Some 0%nat) [] [].

Definition other_file : file := File (Some 2%nat).

(** ** The client programs: [message_sender.c] and [message_reader.c]

    What the programs get from outside the repository is gathered in an
    environment: the C library's [strtoul] in base 10 (the value and
    whether it sets [errno] to [ERANGE]; [errno] is 0 when [main] starts),
    the device nodes of the file system (the minor number of the message
    slot device a path names, if any), the bytes the reader's stack buffer
    holds before the read, and whether the write to standard output
    succeeds. Command-line arguments are C strings: byte lists without a
    zero byte, followed in memory by their terminator. *)
Record environment : Type := Env {
  strtoul : list byte → Z * bool;
  devnode : list byte → option Z;
  stack_junk : list byte;
  stdout_ok : bool
}.

Definition EXIT_SUCCESS : Z := 0.
Definition EXIT_FAILURE : Z := 1.

(** The diagnostics the programs print on standard error. *)
Inductive diagnostic : Type :=
  | Usage           (* "Usage: ..." *)
  | ErrConvert      (* "Error converting channel id" *)
  | ErrOpen         (* "Error opening device file" *)
  | ErrChannel      (* "Error setting channel id" *)
  | ErrRead         (* "Error reading message" *)
  | ErrWrite        (* "Error writing message" *)
  | ErrStdout.      (* "Error writing message to stdout" *)

(** How a program ends: exit status, standard output, standard error. *)
Record exit : Type := Exit {
  status : Z;
  stdout : list byte;
  stderr : list diagnostic
}.

(** [open(path, flags)]: a new [struct file] with NULL [private_data] is
    handed to [device_open]; the descriptor exists when that returns 0.
    The driver has no [release], so [close] does not reach it. *)
Definition sys_open (env : environment) (path : list byte) : M (option file) :=
  match devnode env path with
  | None => ret None
  | Some mnr =>
      r ← device_open mnr (File NULL);
      ret (if r.1 =? 0 then Some r.2 else None)
  end.

(** [strlen] of an argument. *)
Definition strlen (s : list byte) : Z := Z.of_nat (length s).

(** Conversion of an [ssize_t] to [int] (32 bits, two's complement). *)
Definition to_int (x : Z) : Z :=
  let y := x mod 2 ^ 32 in if y <? 2 ^ 31 then y else y - 2 ^ 32.

(** [main] of [message_reader.c]. The result of [read] is kept in an
    [int]; the one write to standard output either fails or is complete. *)
Definition reader_main (env : environment) (argv : list (list byte)) : M exit :=
  match argv with
  | [_; path; chan] =>
      let channel_id := (strtoul env chan).1 in
      fd ← sys_open env path;
      match fd with
      | None => ret (Exit EXIT_FAILURE [] [ErrOpen])
      | Some f =>
          r ← device_ioctl f MSG_SLOT_CHANNEL channel_id;
          if negb (r.1 =? 0) then ret (Exit EXIT_FAILURE [] [ErrChannel])
          else
            rd ← device_read r.2 128 128;
            let ret_ := to_int rd.1 in
            if ret_ <? 0 then ret (Exit EXIT_FAILURE [] [ErrRead])
            else
              let buffer := rd.2 ++ drop (length rd.2) (stack_junk env) in
              if stdout_ok env then
                ret (Exit 0 (take (Z.to_nat ret_) buffer) [])
              else ret (Exit EXIT_FAILURE [] [ErrStdout])
      end
  | _ => ret (Exit EXIT_FAILURE [] [Usage])
  end.

(** [main] of [message_sender.c]. *)
Definition sender_main (env : environment) (argv : list (list byte)) : M exit :=
  match argv with
  | [_; path; chan; msg] =>
      let '(channel_id, erange) := strtoul env chan in
      if erange then ret (Exit EXIT_FAILURE [] [ErrConvert])
      else
        fd ← sys_open env path;
        match fd with
        | None => ret (Exit EXIT_FAILURE [] [ErrOpen])
        | Some f =>
            r ← device_ioctl f MSG_SLOT_CHANNEL channel_id;
            if negb (r.1 =? 0) then ret (Exit EXIT_FAILURE [] [ErrChannel])
            else
              w ← device_write r.2 (msg ++ [x00]) (strlen msg);
              if w <? 0 then ret (Exit EXIT_FAILURE [] [ErrWrite])
              else ret (Exit EXIT_SUCCESS [] [])
        end
  | _ => ret (Exit EXIT_FAILURE [] [Usage])
  end.

(** An environment in which every path names minor 0, every channel
    argument converts to 7, and standard output works. *)
Definition demo_env : environment :=
  Env (λ _, (7, false)) (λ _, Some 0) (replicate 128 x2e) true.

(** Every channel of the store [h] is in [h'], unchanged. *)
Definition channels_kept (h h' : list object) : Prop :=
  ∀ a c, h !! a = Some (OChannel c) → h' !! a = Some (OChannel c).

End MessageSlot.

Import MessageSlot.

(** * Properties *)

Section Monad.

Lemma bind_Ret {A B} (m : M A) (f : A → M B) k x k' :
  m k = Ret x k' → (m ≫= f) k = f x k'.
Proof. intros H. unfold mbind, M_bind, bind. by rewrite H. Qed.

Lemma bind_inv {A B} (m : M A) (f : A → M B) k y k'' :
  (m ≫= f) k = Ret y k'' → ∃ x k', m k = Ret x k' ∧ f x k' = Ret y k''.
Proof.
  unfold mbind, M_bind, bind. destruct (m k) as [x k'| |]; [eauto|done..].
Qed.

End Monad.

(** ** Integer conversions *)

Lemma to_ssize_small n : 0 ≤ n ≤ 128 → to_ssize n = n.
Proof.
  intros Hn. unfold to_ssize. rewrite Z.mod_small by lia.
  destruct (Z.ltb_spec n (2 ^ 63)); lia.
Qed.

Lemma MAX_CHANNELS_eq : MAX_CHANNELS = 2 ^ 20.
Proof. reflexivity. Qed.

Lemma MSG_SLOT_CHANNEL_eq : MSG_SLOT_CHANNEL = 0x4004EB00.
Proof. reflexivity. Qed.

(** ** The message store: [device_write] and [device_read] *)

Section MessageStore.

Variables (k : kernel) (f : file) (a : nat) (c : message_channel).
Hypothesis Hbound : private_data f = Some a.
Hypothesis Hchan : heap k !! a = Some (OChannel c).

Lemma device_write_ok buf count :
  1 ≤ count ≤ 128 → (Z.to_nat count ≤ length buf)%nat →
  device_write f buf count k =
    Ret count (set_heap (<[a := OChannel (written c buf count count)]> (heap k)) k).
Proof using Hbound Hchan.
  intros Hc Hb. unfold device_write. rewrite Hbound.
  destruct (Z.eqb_spec count 0); [lia|]. destruct (Z.ltb_spec 128 count); [lia|].
  simpl. erewrite bind_Ret; [|unfold load_channel; by rewrite Hchan].
  unfold copy_from_user. rewrite Nat.min_l by done.
  replace (count - Z.of_nat (Z.to_nat count)) with 0 by lia. simpl.
  unfold written. rewrite Nat.min_l by done.
  by rewrite to_ssize_small by lia.
Qed.

Lemma device_write_fault buf count :
  1 ≤ count ≤ 128 → (length buf < Z.to_nat count)%nat →
  device_write f buf count k =
    Ret (-1) (set_heap (<[a := OChannel (written c buf count (message_len c))]>
                          (heap k)) k).
Proof using Hbound Hchan.
  intros Hc Hb. unfold device_write. rewrite Hbound.
  destruct (Z.eqb_spec count 0); [lia|]. destruct (Z.ltb_spec 128 count); [lia|].
  simpl. erewrite bind_Ret; [|unfold load_channel; by rewrite Hchan].
  unfold copy_from_user. rewrite Nat.min_r by lia.
  destruct (Z.eqb_spec (count - Z.of_nat (length buf)) 0); [lia|]. simpl.
  unfold written. by rewrite Nat.min_r by lia.
Qed.

Lemma device_write_size buf count :
  count = 0 ∨ 128 < count → device_write f buf count k = Ret (- EMSGSIZE) k.
Proof using Hbound.
  intros Hc. unfold device_write. rewrite Hbound.
  destruct (Z.eqb_spec count 0); [done|]. destruct (Z.ltb_spec 128 count); [done|lia].
Qed.

Lemma device_read_empty writable count :
  message_len c = 0 → device_read f writable count k = Ret (- EWOULDBLOCK, []) k.
Proof using Hbound Hchan.
  intros H0. unfold device_read. rewrite Hbound.
  erewrite bind_Ret; [|unfold load_channel; by rewrite Hchan].
  by rewrite H0.
Qed.

Lemma device_read_small writable count :
  message_len c ≠ 0 → count < message_len c →
  device_read f writable count k = Ret (- ENOSPC, []) k.
Proof using Hbound Hchan.
  intros H0 Hlt. unfold device_read. rewrite Hbound.
  erewrite bind_Ret; [|unfold load_channel; by rewrite Hchan].
  destruct (Z.eqb_spec (message_len c) 0); [done|].
  by destruct (Z.ltb_spec count (message_len c)); [|lia].
Qed.

Lemma device_read_ok writable count :
  1 ≤ message_len c ≤ 128 → message_len c ≤ count →
  (Z.to_nat (message_len c) ≤ writable)%nat →
  device_read f writable count k =
    Ret (message_len c, take (Z.to_nat (message_len c)) (message c)) k.
Proof using Hbound Hchan.
  intros Hl Hc Hw. unfold device_read. rewrite Hbound.
  erewrite bind_Ret; [|unfold load_channel; by rewrite Hchan].
  destruct (Z.eqb_spec (message_len c) 0); [lia|].
  destruct (Z.ltb_spec count (message_len c)); [lia|].
  unfold copy_to_user. rewrite Nat.min_l by done.
  replace (message_len c - Z.of_nat (Z.to_nat (message_len c))) with 0 by lia.
  simpl. by rewrite to_ssize_small by lia.
Qed.

End MessageStore.

(** [device_read] never changes the kernel state. *)
Lemma device_read_pure f writable count k r k' :
  device_read f writable count k = Ret r k' → k' = k.
Proof.
  unfold device_read. destruct (private_data f) as [a|]; [|by intros [= _ <-]].
  intros (c & k1 & Hload & H)%bind_inv.
  unfold load_channel in Hload.
  destruct (heap k !! a) as [[|]|]; simplify_eq.
  destruct (message_len c =? 0); [by injection H|].
  destruct (count <? message_len c); [by injection H|].
  destruct (copy_to_user _ _ _) as [out rest].
  destruct (negb _); by injection H.
Qed.

(** A write that returns a count went through a channel and a valid size. *)
Lemma device_write_success_inv f buf count k r k' :
  device_write f buf count k = Ret r k' → 0 ≤ r →
  ∃ a c, private_data f = Some a ∧ heap k !! a = Some (OChannel c) ∧
    1 ≤ count ≤ 128 ∧ (Z.to_nat count ≤ length buf)%nat.
Proof.
  intros H Hr. unfold device_write in H.
  destruct (private_data f) as [a|] eqn:Hf; [|by inversion H; subst].
  destruct (Z.eqb_spec count 0); [by inversion H; subst|].
  destruct (Z.ltb_spec 128 count); [by inversion H; subst|].
  simpl in H. apply bind_inv in H as (c & k1 & Hload & H).
  unfold load_channel in Hload.
  destruct (heap k !! a) as [[|c']|] eqn:Hh; simplify_eq.
  unfold copy_from_user in H.
  destruct (Z.eqb_spec (count - Z.of_nat (Z.to_nat count `min` length buf)) 0);
    [|simpl in H; inversion H; lia].
  exists a, c. split_and!; [done|done|lia|lia|lia].
Qed.

(** The concrete state is the one the driver reaches by open, ioctl, write. *)
Lemma demo_reached :
  (f ← open 0; f ← select_channel f 7; device_write f hello 5 ;; ret f)
    (boot (plenty 2)) = Ret demo_file (demo_kernel hello).
Proof. vm_compute. reflexivity. Qed.

Lemma demo_empty_reached :
  (f ← open 0; select_channel f 7) (boot (plenty 2))
    = Ret demo_file (demo_kernel []).
Proof. vm_compute. reflexivity. Qed.

Lemma one_slot_reached n :
  open 0 (boot (plenty (S n))) = Ret fresh_file (one_slot n).
Proof. reflexivity. Qed.

(** ** What [private_data] points to *)

Lemma find_slot_Found fuel h link cur mnr a :
  find_slot fuel h link cur mnr = Found a →
  ∃ s, h !! a = Some (OSlot s) ∧ minor s = mnr.
Proof.
  revert link cur. induction fuel as [|fuel IH]; intros link [b|] H;
    simpl in H; try done.
  destruct (h !! b) as [[s|]|] eqn:Hb; try done.
  destruct (Z.eqb_spec (minor s) mnr); [|by eapply IH].
  inversion H; subst. eauto.
Qed.

Lemma find_slot_NotFound fuel h link cur mnr a :
  find_slot fuel h link cur mnr = NotFound (Some a) →
  (link = Some a ∨ ∃ s, h !! a = Some (OSlot s)).
Proof.
  revert link cur. induction fuel as [|fuel IH]; intros link [b|] H;
    simpl in H; try done; try (inversion H; by left).
  destruct (h !! b) as [[s|]|] eqn:Hb; try done.
  destruct (Z.eqb_spec (minor s) mnr); [done|].
  destruct (IH _ _ H) as [[= ->]|?]; eauto.
Qed.

(** After a successful open, [private_data] is the address of a slot with
    the file's minor number: it is not NULL. *)
Lemma device_open_private_data mnr f0 k f k' :
  device_open mnr f0 k = Ret (0, f) k' →
  ∃ a s, private_data f = Some a ∧ heap k' !! a = Some (OSlot s) ∧ minor s = mnr.
Proof.
  unfold device_open. intros H.
  apply bind_inv in H as (h & k1 & [= <- <-] & H).
  apply bind_inv in H as (head & k1 & [= <- <-] & H).
  destruct (find_slot _ _ _ _ _) as [a|link| |] eqn:Hfind; try done.
  { inversion H; subst. apply find_slot_Found in Hfind as (s & ? & ?). eauto. }
  apply bind_inv in H as (slot & k1 & Halloc & H).
  unfold kmalloc in Halloc.
  destruct (allocator k) as [|[|junk] rest]; simplify_eq.
  apply bind_inv in H as ([] & k2 & Hlink & [= <- <-]).
  exists (length (heap k)), (Slot NULL 0 mnr NULL). split; [done|].
  split; [|done].
  destruct link as [b|]; simpl in Hlink.
  - apply find_slot_NotFound in Hfind as [?|[s Hs]]; [done|].
    apply lookup_lt_Some in Hs.
    apply bind_inv in Hlink as (s' & k3 & Hload & [= <-]).
    unfold load_slot in Hload. simpl in Hload.
    destruct (_ !! b) as [[|]|]; simplify_eq. simpl.
    rewrite list_lookup_insert_ne by lia.
    by rewrite lookup_app_r, Nat.sub_diag by lia.
  - inversion Hlink; subst. simpl.
    by rewrite lookup_app_r, Nat.sub_diag by lia.
Qed.

Section FreshSession.

Variables (k : kernel) (f : file) (a : nat) (s : message_slot).
Hypothesis Hfile : private_data f = Some a.
Hypothesis Hslot : heap k !! a = Some (OSlot s).

(** On a file that still points to its slot, the NULL test of
    [device_write] does not fire: the size test comes next, and a valid
    size goes on to use the slot as if it were a channel. *)
Lemma device_write_on_slot buf count :
  device_write f buf count k =
    if (count =? 0) || (128 <? count) then Ret (- EMSGSIZE) k else Undefined.
Proof using Hfile Hslot.
  unfold device_write. rewrite Hfile.
  destruct ((count =? 0) || (128 <? count)); [done|].
  unfold mbind, M_bind, bind, load_channel. by rewrite Hslot.
Qed.

Lemma device_read_on_slot writable count :
  device_read f writable count k = Undefined.
Proof using Hfile Hslot.
  unfold device_read. rewrite Hfile.
  unfold mbind, M_bind, bind, load_channel. by rewrite Hslot.
Qed.

(** On such a file [device_ioctl] hands the slot to
    [get_or_create_channel] and stores the channel it returns. *)
Lemma device_ioctl_on_slot param :
  param ≠ 0 →
  device_ioctl f MSG_SLOT_CHANNEL param k =
    match get_or_create_channel a (to_uint param) k with
    | Ret (Some ch) k' => Ret (0, File (Some ch)) k'
    | Ret None k' => Ret (- EINVAL, f) k'
    | Undefined => Undefined
    | Diverges => Diverges
    end.
Proof using Hfile.
  intros Hp. unfold device_ioctl. rewrite Z.eqb_refl, Hfile.
  destruct (Z.eqb_spec param 0); [done|]. simpl.
  unfold mbind, M_bind, bind.
  by destruct (get_or_create_channel _ _ _) as [[?|] ?| |].
Qed.

End FreshSession.

(** Once [private_data] points to a channel, [device_ioctl] hands that
    channel to [get_or_create_channel] as the slot. *)
Lemma device_ioctl_on_channel k f a c param :
  private_data f = Some a → heap k !! a = Some (OChannel c) → param ≠ 0 →
  device_ioctl f MSG_SLOT_CHANNEL param k = Undefined.
Proof.
  intros Hf Hc Hp. unfold device_ioctl. rewrite Z.eqb_refl, Hf.
  destruct (Z.eqb_spec param 0); [done|]. simpl.
  unfold get_or_create_channel, mbind, M_bind, bind, load_slot.
  by rewrite Hc.
Qed.

(** A write refused for its arguments leaves the kernel state as it was. *)
Lemma device_write_rejected_pure f buf count k r k' :
  device_write f buf count k = Ret r k' →
  r = - EINVAL ∨ r = - EMSGSIZE → k' = k.
Proof.
  unfold device_write. intros H Hr.
  destruct (private_data f) as [a|]; [|by inversion H].
  destruct (Z.eqb_spec count 0); [by inversion H|].
  destruct (Z.ltb_spec 128 count); [by inversion H|]. simpl in H.
  apply bind_inv in H as (c & k1 & Hload & H).
  unfold copy_from_user in H.
  destruct (Z.eqb_spec (count - Z.of_nat (Z.to_nat count `min` length buf)) 0);
    simpl in H; inversion H; subst; unfold EINVAL, EMSGSIZE in Hr; [|lia].
  rewrite to_ssize_small in Hr by lia. lia.
Qed.

(** C4. Round trip: on a session bound to a channel, writing a message [m]
    of 1 to 128 bytes succeeds with count [len(m)], and a following read
    with capacity at least [len(m)] (into a user buffer that really has
    that many writable bytes) returns the count [len(m)] and exactly the
    bytes of [m]. *)
Theorem write_read_roundtrip k f a c (m extra : list byte) writable cap :
  private_data f = Some a → heap k !! a = Some (OChannel c) →
  (1 ≤ length m ≤ 128)%nat →
  Z.of_nat (length m) ≤ cap → (length m ≤ writable)%nat →
  ∃ k',
    device_write f (m ++ extra) (Z.of_nat (length m)) k
      = Ret (Z.of_nat (length m)) k' ∧
    device_read f writable cap k' = Ret (Z.of_nat (length m), m) k'.
Proof.
  intros Hf Hc Hm Hcap Hw. eexists. split.
  - apply (device_write_ok k f a c Hf Hc); [lia|].
    rewrite length_app. lia.
  - set (c' := written c (m ++ extra) (Z.of_nat (length m)) (Z.of_nat (length m))).
    assert (Hc' : heap (set_heap (<[a := OChannel c']> (heap k)) k) !! a
                  = Some (OChannel c')).
    { simpl. apply list_lookup_insert_eq. by eapply lookup_lt_Some. }
    rewrite (device_read_ok _ f a c' Hf Hc' writable cap); simpl; [|lia..].
    do 3 f_equal. rewrite !Nat2Z.id, Nat.min_l by (rewrite length_app; lia).
    rewrite take_app_le by (rewrite length_take, length_app; lia).
    rewrite take_take, Nat.min_id. by rewrite take_app_length.
Qed.

(** The round trip of "hello" on the channel of [demo_kernel []]. *)
Lemma write_read_roundtrip_witness :
  ∃ k',
    device_write demo_file (hello ++ []) (Z.of_nat (length hello)) (demo_kernel [])
      = Ret (Z.of_nat (length hello)) k' ∧
    device_read demo_file 5 5 k' = Ret (Z.of_nat (length hello), hello) k'.
Proof.
  apply (write_read_roundtrip (demo_kernel []) demo_file 1 (demo_channel [])
           hello [] 5 5); [reflexivity|reflexivity|simpl; lia|simpl; lia|simpl; lia].
Defined.

(** C6. On a session bound to a channel (whose length field is within the
    128-byte buffer), a read fails with [-EWOULDBLOCK] (NoMessageAvailable)
    when the message length is 0, fails with [-ENOSPC] (DestinationTooSmall)
    when the capacity is below the message length, and otherwise, the user
    buffer being writable that far, delivers exactly [message_len] bytes,
    the stored message, and returns that count. No case changes the state. *)
Theorem read_cases k f a c writable count :
  private_data f = Some a → heap k !! a = Some (OChannel c) →
  channel_ok c → 0 ≤ count →
  (message_len c = 0 →
     device_read f writable count k = Ret (- EWOULDBLOCK, []) k) ∧
  (count < message_len c →
     device_read f writable count k = Ret (- ENOSPC, []) k) ∧
  (message_len c ≠ 0 → message_len c ≤ count →
   (Z.to_nat (message_len c) ≤ writable)%nat →
     let out := take (Z.to_nat (message_len c)) (message c) in
     device_read f writable count k = Ret (message_len c, out) k ∧
     Z.of_nat (length out) = message_len c).
Proof.
  intros Hf Hc [Hlen Hrange] Hcount. split_and!.
  - by apply (device_read_empty k f a c).
  - intros Hlt. apply (device_read_small k f a c); [done|done|lia|done].
  - intros Hne Hle Hw. split.
    + apply (device_read_ok k f a c); [done|done|lia|done|done].
    + rewrite length_take. lia.
Qed.

(** The three cases on the demo channel: empty, capacity 3 for "hello",
    capacity 8 for "hello". *)
Lemma read_cases_witness :
  device_read demo_file 8 8 (demo_kernel [])
    = Ret (- EWOULDBLOCK, []) (demo_kernel []) ∧
  device_read demo_file 8 3 (demo_kernel hello)
    = Ret (- ENOSPC, []) (demo_kernel hello) ∧
  device_read demo_file 8 8 (demo_kernel hello)
    = Ret (5, hello) (demo_kernel hello).
Proof.
  split_and!.
  - apply (read_cases (demo_kernel []) demo_file 1 (demo_channel []) 8 8);
      [reflexivity|reflexivity|split; simpl; [reflexivity|lia]|lia|reflexivity].
  - apply (read_cases (demo_kernel hello) demo_file 1 (demo_channel hello) 8 3);
      [reflexivity|reflexivity|split; simpl; [reflexivity|lia]|lia|simpl; lia].
  - apply (read_cases (demo_kernel hello) demo_file 1 (demo_channel hello) 8 8);
      [reflexivity|reflexivity|split; simpl; [reflexivity|lia]|lia|
       simpl; lia|simpl; lia|simpl; lia].
Defined.

(** Reads do not consume. On a session bound to a channel that holds a
    message, a successful read changes nothing in the kernel state, so the
    stored bytes and length stay as they were: the same read repeated any
    number of times, with no other call in between, returns the same count
    and bytes, and so does a read through any file bound to the same channel
    with any capacity and user buffer large enough for the message. *)
Lemma read_not_consumed k f a c writable count r out k' :
  private_data f = Some a → heap k !! a = Some (OChannel c) → channel_ok c →
  device_read f writable count k = Ret (r, out) k' → 0 ≤ r →
  k' = k ∧
  r = message_len c ∧ out = take (Z.to_nat (message_len c)) (message c) ∧
  (∀ n, reads n f writable count k = Ret (replicate n (r, out)) k) ∧
  (∀ f' writable' count',
     private_data f' = Some a →
     message_len c ≤ count' → (Z.to_nat (message_len c) ≤ writable')%nat →
     device_read f' writable' count' k = Ret (r, out) k).
Proof.
  intros Hf Hc [Hlen Hrange] Hread Hr.
  assert (k' = k) as -> by (by eapply device_read_pure).
  destruct (decide (message_len c = 0)) as [H0|H0].
  { rewrite (device_read_empty k f a c Hf Hc _ _ H0) in Hread.
    inversion Hread; subst. unfold EWOULDBLOCK in Hr. lia. }
  destruct (decide (count < message_len c)) as [Hlt|Hge].
  { rewrite (device_read_small k f a c Hf Hc _ _ H0 Hlt) in Hread.
    inversion Hread; subst. unfold ENOSPC in Hr. lia. }
  assert (r = message_len c ∧ out = take (Z.to_nat (message_len c)) (message c))
    as [-> ->].
  { destruct (decide (Z.to_nat (message_len c) ≤ writable)%nat) as [Hw|Hw].
    - rewrite (device_read_ok k f a c Hf Hc) in Hread by lia.
      by inversion Hread.
    - unfold device_read in Hread. rewrite Hf in Hread.
      erewrite bind_Ret in Hread by (unfold load_channel; by rewrite Hc).
      destruct (Z.eqb_spec (message_len c) 0); [done|].
      destruct (Z.ltb_spec count (message_len c)); [done|].
      unfold copy_to_user in Hread. rewrite Nat.min_r in Hread by lia.
      destruct (Z.eqb_spec (message_len c - Z.of_nat writable) 0); [lia|].
      simpl in Hread. inversion Hread. lia. }
  split_and!; [done..| |].
  - induction n as [|n IH]; [done|]. simpl.
    erewrite bind_Ret by exact Hread. erewrite bind_Ret by exact IH. done.
  - intros f' writable' count' Hf' Hc' Hw'.
    apply (device_read_ok k f' a c Hf' Hc); [lia|done|done].
Qed.

(** Reading "hello" from the demo channel, any number of times. *)
Lemma read_not_consumed_witness :
  demo_kernel hello = demo_kernel hello ∧
  5 = message_len (demo_channel hello) ∧
  hello = take (Z.to_nat (message_len (demo_channel hello)))
               (message (demo_channel hello)) ∧
  (∀ n, reads n demo_file 8 8 (demo_kernel hello)
        = Ret (replicate n (5, hello)) (demo_kernel hello)) ∧
  (∀ f' writable' count',
     private_data f' = Some 1%nat →
     message_len (demo_channel hello) ≤ count' →
     (Z.to_nat (message_len (demo_channel hello)) ≤ writable')%nat →
     device_read f' writable' count' (demo_kernel hello)
       = Ret (5, hello) (demo_kernel hello)).
Proof.
  apply (read_not_consumed (demo_kernel hello) demo_file 1 (demo_channel hello)
           8 8 5 hello (demo_kernel hello));
    [reflexivity|reflexivity|split; simpl; [reflexivity|lia]|reflexivity|lia].
Defined.

(** C10. After a successful write of [count] bytes the channel's buffer is
    128 bytes long, holds the written bytes at indices [0..count-1] and zero
    at every index [count..127], and the length field is [count]. *)
Theorem write_buffer_layout k f buf count r k' :
  device_write f buf count k = Ret r k' → 0 ≤ r →
  ∃ a c c',
    private_data f = Some a ∧ heap k !! a = Some (OChannel c) ∧
    heap k' !! a = Some (OChannel c') ∧
    1 ≤ count ≤ 128 ∧ r = count ∧ (Z.to_nat count ≤ length buf)%nat ∧
    channel_id c' = channel_id c ∧ next c' = next c ∧
    message_len c' = count ∧ length (message c') = 128%nat ∧
    message c' = take (Z.to_nat count) buf
                   ++ replicate (128 - Z.to_nat count) zero ∧
    (∀ i, (i < Z.to_nat count)%nat → message c' !! i = buf !! i) ∧
    (∀ i, (Z.to_nat count ≤ i < 128)%nat → message c' !! i = Some zero).
Proof.
  intros Hw Hr.
  destruct (device_write_success_inv _ _ _ _ _ _ Hw Hr)
    as (a & c & Hf & Hc & Hcount & Hbuf).
  rewrite (device_write_ok k f a c Hf Hc buf count Hcount Hbuf) in Hw.
  inversion Hw; subst r k'. clear Hw.
  exists a, c, (written c buf count count).
  assert (Hmsg : message (written c buf count count)
                 = take (Z.to_nat count) buf
                     ++ replicate (128 - Z.to_nat count) zero).
  { unfold written, memset_message. cbn [message]. rewrite Nat.min_l by done.
    by rewrite drop_replicate. }
  split_and!; try done; try lia.
  - simpl. apply list_lookup_insert_eq. by eapply lookup_lt_Some.
  - rewrite Hmsg, length_app, length_take, length_replicate. lia.
  - intros i Hi. rewrite Hmsg, lookup_app_l by (rewrite length_take; lia).
    by apply lookup_take_lt.
  - intros i Hi. rewrite Hmsg, lookup_app_r by (rewrite length_take; lia).
    rewrite length_take. apply lookup_replicate_2. lia.
Qed.

(** The buffer after "hello" was written to the empty demo channel. *)
Lemma write_buffer_layout_witness :
  ∃ a c c',
    private_data demo_file = Some a ∧
    heap (demo_kernel []) !! a = Some (OChannel c) ∧
    heap (demo_kernel hello) !! a = Some (OChannel c') ∧
    1 ≤ 5 ≤ 128 ∧ 5 = 5 ∧ (Z.to_nat 5 ≤ length hello)%nat ∧
    channel_id c' = channel_id c ∧ next c' = next c ∧
    message_len c' = 5 ∧ length (message c') = 128%nat ∧
    message c' = take (Z.to_nat 5) hello ++ replicate (128 - Z.to_nat 5) zero ∧
    (∀ i, (i < Z.to_nat 5)%nat → message c' !! i = hello !! i) ∧
    (∀ i, (Z.to_nat 5 ≤ i < 128)%nat → message c' !! i = Some zero).
Proof.
  apply (write_buffer_layout (demo_kernel []) demo_file hello 5 5
           (demo_kernel hello)); [vm_compute; reflexivity|lia].
Defined.

(** ** Sessions that are not bound to a channel, or bound already *)

(** C1. A freshly opened session is expected to have its writes and reads
    refused as "channel not set" ([-EINVAL] from [device_write], [-1] from
    [device_read]). The driver does not do so: [device_open] leaves
    [private_data] pointing to the slot, so the NULL tests pass. After
    opening minor 0 on a booted kernel, a write of 0 bytes returns
    [-EMSGSIZE], and a write of 5 bytes and a read go on to use the slot as
    a channel. *)
Theorem fresh_session_not_refused :
  (f ← open 0; device_write f [] 0) (boot (plenty 1))
    = Ret (- EMSGSIZE) (one_slot 0) ∧
  (f ← open 0; device_write f hello 5) (boot (plenty 1)) = Undefined ∧
  (f ← open 0; device_read f 128 128) (boot (plenty 1)) = Undefined.
Proof. split_and!; reflexivity. Qed.

(** No opened session is ever refused as "channel not set". *)
Lemma opened_session_never_refused mnr f0 k f k' buf writable count :
  device_open mnr f0 k = Ret (0, f) k' →
  (∀ k'', device_write f buf count k' ≠ Ret (- EINVAL) k'') ∧
  (∀ out k'', device_read f writable count k' ≠ Ret (-1, out) k'').
Proof.
  intros (a & s & Hf & Hs & _)%device_open_private_data. split.
  - intros k''. rewrite (device_write_on_slot k' f a s Hf Hs).
    by destruct (_ || _).
  - intros out k''. by rewrite (device_read_on_slot k' f a s Hf Hs).
Qed.

(** C2. A session bound to a channel is expected to rebind with a further
    select-channel. The driver has overwritten the slot pointer with the
    channel pointer by then: after open and a first ioctl for channel 1, a
    second ioctl for channel 2 calls [get_or_create_channel] on the channel
    in place of the slot. *)
Theorem rebind_uses_channel_as_slot :
  (f ← open 0; select_channel f 1) (boot (plenty 3))
    = Ret (File (Some 1%nat))
          (Kernel [OSlot (Slot (Some 1%nat) 1 0 NULL);
                   OChannel (Channel 1 (replicate 128 zero) 0 NULL)]
                  (Some 0%nat) (plenty 1) []) ∧
  (f ← open 0; f ← select_channel f 1; device_ioctl f MSG_SLOT_CHANNEL 2)
    (boot (plenty 3)) = Undefined.
Proof. split; vm_compute; reflexivity. Qed.

(** C3. A failed write is expected to leave the stored message intact. The
    driver clears the buffer and copies into it before it knows whether the
    copy succeeds: with "hello" stored, a write of 3 bytes from a user
    buffer that cannot be read returns [-1], and the next read returns 5
    zero bytes in place of "hello". *)
Theorem failed_write_clobbers_message :
  device_read demo_file 128 128 (demo_kernel hello)
    = Ret (5, hello) (demo_kernel hello) ∧
  device_write demo_file [] 3 (demo_kernel hello) = Ret (-1) clobbered ∧
  device_read demo_file 128 128 clobbered
    = Ret (5, [zero; zero; zero; zero; zero]) clobbered.
Proof. split_and!; vm_compute; reflexivity. Qed.

(** C9. Reads are expected to return the same message until the next
    successful write. Reads themselves consume nothing
    ([read_not_consumed]), but a write that fails in between does: on one
    session bound to a channel that holds "hello", a read returns "hello",
    a write of 3 bytes from a user buffer that cannot be read returns [-1],
    and the read after it returns 5 zero bytes, no write having succeeded
    since the first read. *)
Theorem failed_write_between_reads :
  (r1 ← device_read demo_file 128 128;
   w ← device_write demo_file [] 3;
   r2 ← device_read demo_file 128 128;
   ret (r1, w, r2)) (demo_kernel hello)
    = Ret ((5, hello), -1, (5, [zero; zero; zero; zero; zero])) clobbered.
Proof. vm_compute. reflexivity. Qed.

(** [get_or_create_channel] itself has no test for id 0; on a slot without
    channels it creates channel 0. *)
Lemma get_or_create_channel_zero :
  get_or_create_channel 0 0 (one_slot 1)
    = Ret (Some 1%nat)
          (Kernel [OSlot (Slot (Some 1%nat) 1 0 NULL);
                   OChannel (Channel 0 (replicate 128 zero) 0 NULL)]
                  (Some 0%nat) [] []).
Proof. vm_compute. reflexivity. Qed.

(** The only test for zero is in [device_ioctl], on the parameter as it
    arrives: for every file, request number and kernel state, an ioctl with
    parameter 0 returns [-EINVAL] and leaves file and state as they were,
    [get_or_create_channel] not being called. *)
Lemma ioctl_zero_refused f ioctl_num k :
  device_ioctl f ioctl_num 0 k = Ret (- EINVAL, f) k.
Proof.
  unfold device_ioctl. rewrite Z.eqb_refl, orb_true_r. reflexivity.
Qed.

(** C8. A request for channel id 0 is expected to be refused by
    [get_or_create_channel] with "invalid channel id". The driver does not do
    so: [get_or_create_channel] has no test for id 0, and the test of
    [device_ioctl] is on the [unsigned long] parameter, before the
    conversion to [unsigned int]. On a freshly opened session of a slot
    without channels, the parameter [2^32] passes that test and is
    converted to id 0; [get_or_create_channel] is called with id 0 on the
    slot, creates a channel with id 0, and the ioctl returns 0 with the
    session bound to that channel. *)
Theorem ioctl_param_truncated :
  to_uint (2 ^ 32) = 0 ∧
  get_or_create_channel 0 (to_uint (2 ^ 32)) (one_slot 1)
    = Ret (Some 1%nat)
          (Kernel [OSlot (Slot (Some 1%nat) 1 0 NULL);
                   OChannel (Channel 0 (replicate 128 zero) 0 NULL)]
                  (Some 0%nat) [] []) ∧
  device_ioctl fresh_file MSG_SLOT_CHANNEL (2 ^ 32) (one_slot 1)
    = Ret (0, File (Some 1%nat))
          (Kernel [OSlot (Slot (Some 1%nat) 1 0 NULL);
                   OChannel (Channel 0 (replicate 128 zero) 0 NULL)]
                  (Some 0%nat) [] []).
Proof. split_and!; vm_compute; reflexivity. Qed.

(** ** Channel lists *)

Lemma chan_list_det h p cs1 cs2 :
  chan_list h p cs1 → chan_list h p cs2 → cs1 = cs2.
Proof.
  revert p cs2. induction cs1 as [|[a c] cs1 IH]; intros p [|[a' c'] cs2];
    simpl; unfold NULL.
  - done.
  - intros -> [? _]. done.
  - intros [-> _] ?. done.
  - intros (-> & Hc & H1) ([= <-] & Hc' & H2). simplify_eq.
    f_equal. by eapply IH.
Qed.

Lemma chan_list_suffix h p cs1 a c cs2 :
  chan_list h p (cs1 ++ (a, c) :: cs2) → chan_list h (Some a) ((a, c) :: cs2).
Proof.
  revert p. induction cs1 as [|[a' c'] cs1 IH]; intros p; simpl.
  - by intros (_ & ? & ?).
  - intros (_ & _ & H). by eapply IH.
Qed.

Lemma chan_list_NoDup h p cs : chan_list h p cs → NoDup cs.*1.
Proof.
  revert p. induction cs as [|[a c] cs IH]; intros p; simpl; [constructor|].
  intros (-> & Hc & Hrest). constructor; [|by eapply IH].
  intros ((a' & c') & Heq & (cs1 & cs2 & ->)%list_elem_of_split)%list_elem_of_fmap.
  simpl in Heq. subst a'.
  pose proof (chan_list_suffix _ _ _ _ _ _ Hrest) as Hsuf.
  assert (Hfull : chan_list h (Some a) ((a, c) :: cs1 ++ (a, c') :: cs2))
    by done.
  pose proof (chan_list_det _ _ _ _ Hsuf Hfull) as Heq.
  apply (f_equal length) in Heq. simpl in Heq.
  rewrite length_app in Heq. simpl in Heq. lia.
Qed.

Lemma chan_list_lookup h p cs a c :
  chan_list h p cs → (a, c) ∈ cs → h !! a = Some (OChannel c).
Proof.
  revert p. induction cs as [|[a' c'] cs IH]; intros p; simpl.
  - by intros _ ?%elem_of_nil.
  - intros (_ & Hc & Hrest) [[= -> ->]|Hin]%elem_of_cons; [done|by eapply IH].
Qed.

(** A channel list is no longer than the store: the walk over it ends
    within [S (length h)] steps. *)
Lemma chan_list_length h p cs : chan_list h p cs → (length cs ≤ length h)%nat.
Proof.
  intros Hl.
  enough (length cs.*1 ≤ length (seq 0 (length h)))%nat as H
    by (by rewrite length_fmap, length_seq in H).
  apply submseteq_length, NoDup_submseteq; [by eapply chan_list_NoDup|].
  intros a ((a' & c) & -> & Hin)%list_elem_of_fmap. simpl.
  apply elem_of_seq. split; [lia|]. simpl.
  eapply lookup_lt_Some, chan_list_lookup; eauto.
Qed.

(** Changes of the store away from the list's nodes do not affect it. *)
Lemma chan_list_frame h h' p cs :
  chan_list h p cs → (∀ a c, (a, c) ∈ cs → h' !! a = h !! a) →
  chan_list h' p cs.
Proof.
  revert p. induction cs as [|[a c] cs IH]; intros p; simpl; [done|].
  intros (-> & Hc & Hrest) Hsame. split_and!; [done| |].
  - rewrite (Hsame a c); [done|]. apply elem_of_cons; by left.
  - apply IH; [done|]. intros a' c' Hin. apply (Hsame a' c'), elem_of_cons.
    by right.
Qed.

Lemma find_channel_absent fuel h p cs id :
  chan_list h p cs → (length cs ≤ fuel)%nat → id ∉ chan_ids cs →
  find_channel fuel h p id = NotFound None.
Proof.
  revert fuel p. induction cs as [|[a c] cs IH]; intros fuel p; simpl.
  - intros -> _ _. by destruct fuel.
  - intros (-> & Hc & Hrest) Hfuel Hid.
    destruct fuel as [|fuel]; [lia|]. simpl. rewrite Hc.
    apply not_elem_of_cons in Hid as [Hne Hid]. simpl in Hne.
    destruct (Z.eqb_spec (channel_id c) id); [done|].
    apply IH; [done|lia|done].
Qed.

Lemma find_channel_present fuel h p cs id :
  chan_list h p cs → (length cs ≤ fuel)%nat → id ∈ chan_ids cs →
  ∃ a c, find_channel fuel h p id = Found a ∧ (a, c) ∈ cs ∧ channel_id c = id.
Proof.
  revert fuel p. induction cs as [|[a c] cs IH]; intros fuel p; simpl.
  - by intros _ _ ?%elem_of_nil.
  - intros (-> & Hc & Hrest) Hfuel Hid.
    destruct fuel as [|fuel]; [lia|]. simpl. rewrite Hc.
    destruct (Z.eqb_spec (channel_id c) id) as [Heq|Hne].
    { exists a, c. split_and!; [done| |done]. apply elem_of_cons; by left. }
    apply elem_of_cons in Hid as [Hid|Hid]; [simpl in Hid; congruence|].
    destruct (IH fuel (next c) Hrest ltac:(lia) Hid) as (a' & c' & ? & ? & ?).
    exists a', c'. split_and!; [done| |done]. apply elem_of_cons; by right.
Qed.

(** ** get_or_create_channel *)

Section ChannelTable.

Variables (k : kernel) (slot : nat) (s : message_slot).
Variable cs : list (nat * message_channel).
Hypothesis Hslot : heap k !! slot = Some (OSlot s).
Hypothesis Hlist : chan_list (heap k) (channels s) cs.

(** An id that is in the list is found: the channel comes back and nothing
    changes, whatever the channel count. *)
Lemma get_or_create_channel_existing id :
  id ∈ chan_ids cs →
  ∃ a c, get_or_create_channel slot id k = Ret (Some a) k ∧
         (a, c) ∈ cs ∧ heap k !! a = Some (OChannel c) ∧ channel_id c = id.
Proof using Hslot Hlist.
  intros Hid.
  destruct (find_channel_present (S (length (heap k))) _ _ _ id Hlist)
    as (a & c & Hfind & Hin & Hc); [|done|].
  { pose proof (chan_list_length _ _ _ Hlist). lia. }
  exists a, c. split_and!; [|done|by eapply chan_list_lookup|done].
  unfold get_or_create_channel.
  erewrite bind_Ret by (unfold load_slot; by rewrite Hslot).
  erewrite bind_Ret by reflexivity. by rewrite Hfind.
Qed.

Lemma find_channel_new id :
  id ∉ chan_ids cs →
  find_channel (S (length (heap k))) (heap k) (channels s) id = NotFound None.
Proof using Hlist.
  intros Hid. eapply find_channel_absent; [done| |done].
  pose proof (chan_list_length _ _ _ Hlist). lia.
Qed.

(** A new id at the limit: NULL, the warning is logged, nothing else
    changes and the allocator is not called. *)
Lemma get_or_create_channel_full id :
  id ∉ chan_ids cs → MAX_CHANNELS ≤ channel_count s →
  get_or_create_channel slot id k =
    Ret NULL (Kernel (heap k) (slots k) (allocator k)
                     (klog k ++ [MsgExceededMaxChannels])).
Proof using Hslot Hlist.
  intros Hid Hfull. unfold get_or_create_channel.
  erewrite bind_Ret by (unfold load_slot; by rewrite Hslot).
  erewrite bind_Ret by reflexivity. rewrite (find_channel_new id Hid).
  by destruct (Z.leb_spec MAX_CHANNELS (channel_count s)); [|lia].
Qed.

(** A new id below the limit, memory available: the channel is allocated
    with length 0, put at the head of the list, and counted. *)
Lemma get_or_create_channel_new id junk rest :
  id ∉ chan_ids cs → channel_count s < MAX_CHANNELS →
  allocator k = KmOk junk :: rest →
  get_or_create_channel slot id k
    = Ret (Some (length (heap k))) (created k slot s id junk rest).
Proof using Hslot Hlist.
  intros Hid Hcount Halloc. unfold get_or_create_channel.
  erewrite bind_Ret by (unfold load_slot; by rewrite Hslot).
  erewrite bind_Ret by reflexivity. rewrite (find_channel_new id Hid).
  destruct (Z.leb_spec MAX_CHANNELS (channel_count s)); [lia|].
  erewrite bind_Ret by (unfold kmalloc; by rewrite Halloc).
  reflexivity.
Qed.

(** A new id below the limit, no memory: NULL, the error is logged. *)
Lemma get_or_create_channel_nomem id :
  id ∉ chan_ids cs → channel_count s < MAX_CHANNELS →
  allocator k = [] ∨ (∃ rest, allocator k = KmFail :: rest) →
  ∃ k', get_or_create_channel slot id k = Ret NULL k' ∧ heap k' = heap k.
Proof using Hslot Hlist.
  intros Hid Hcount Halloc. unfold get_or_create_channel.
  erewrite bind_Ret by (unfold load_slot; by rewrite Hslot).
  erewrite bind_Ret by reflexivity. rewrite (find_channel_new id Hid).
  destruct (Z.leb_spec MAX_CHANNELS (channel_count s)); [lia|].
  destruct Halloc as [Halloc|[rest Halloc]].
  - erewrite bind_Ret by (unfold kmalloc; by rewrite Halloc). by eexists.
  - erewrite bind_Ret by (unfold kmalloc; by rewrite Halloc). by eexists.
Qed.

(** The slot after a creation: the new channel heads the list. *)
Lemma created_slot id junk rest :
  heap (created k slot s id junk rest) !! slot
    = Some (OSlot (Slot (Some (length (heap k)))
                        (to_ulong (channel_count s + 1)) (minor s) (slot_next s))).
Proof using Hslot.
  simpl. apply list_lookup_insert_eq. rewrite length_app.
  apply lookup_lt_Some in Hslot. lia.
Qed.

Lemma created_list id junk rest :
  chan_list (heap (created k slot s id junk rest)) (Some (length (heap k)))
    ((length (heap k), Channel id (junk_message junk) 0 (channels s)) :: cs).
Proof using Hslot Hlist.
  assert (Hne : slot ≠ length (heap k))
    by (apply lookup_lt_Some in Hslot; lia).
  simpl. split_and!; [done| |].
  - rewrite list_lookup_insert_ne by done.
    by rewrite lookup_app_r, Nat.sub_diag by lia.
  - eapply chan_list_frame; [exact Hlist|].
    intros a c Hin. pose proof (chan_list_lookup _ _ _ _ _ Hlist Hin) as Ha.
    rewrite list_lookup_insert_ne by congruence.
    apply lookup_app_l. by eapply lookup_lt_Some.
Qed.

End ChannelTable.

Lemma served_cons alloc n :
  served alloc (S n) → ∃ junk rest, alloc = KmOk junk :: rest ∧ served rest n.
Proof.
  intros ([|junk junks] & rest & -> & Hlen); [done|].
  exists junk, ((KmOk <$> junks) ++ rest). split; [done|].
  exists junks, rest. split; [done|]. simpl in Hlen. lia.
Qed.

Lemma served_plenty n : served (plenty n) n.
Proof.
  exists (replicate n (λ _, zero)), []. split.
  - unfold plenty. by rewrite fmap_replicate, app_nil_r.
  - apply length_replicate.
Qed.

(** Creating channels for new, distinct ids, as long as the count stays
    within the limit and memory is served: every call returns a channel,
    the ids join the list and the count grows by their number. *)
Lemma create_channels_spec slot ids :
  ∀ k s cs,
    heap k !! slot = Some (OSlot s) → chan_list (heap k) (channels s) cs →
    0 ≤ channel_count s → NoDup ids → (∀ id, id ∈ ids → id ∉ chan_ids cs) →
    channel_count s + Z.of_nat (length ids) ≤ MAX_CHANNELS →
    served (allocator k) (length ids) →
    ∃ ps k' s' cs',
      create_channels slot ids k = Ret ps k' ∧
      Forall (λ p, p ≠ NULL) ps ∧ length ps = length ids ∧
      heap k' !! slot = Some (OSlot s') ∧
      chan_list (heap k') (channels s') cs' ∧
      channel_count s' = channel_count s + Z.of_nat (length ids) ∧
      (∀ id, id ∈ chan_ids cs' ↔ id ∈ ids ∨ id ∈ chan_ids cs).
Proof.
  induction ids as [|id ids IH]; intros k s cs Hslot Hlist Hpos Hnd Hnew Hcap Hmem.
  { exists [], k, s, cs. simpl. split_and!; try done; [lia|].
    intros id. split; [by right|]. by intros [?%elem_of_nil|?]. }
  apply NoDup_cons in Hnd as [Hid Hnd]. simpl in Hcap.
  apply served_cons in Hmem as (junk & rest & Halloc & Hmem).
  assert (Hid' : id ∉ chan_ids cs) by (apply Hnew, elem_of_cons; by left).
  pose proof (get_or_create_channel_new k slot s cs Hslot Hlist id junk rest
                Hid' ltac:(lia) Halloc) as Hstep.
  pose proof (created_slot k slot s Hslot id junk rest) as Hslot1.
  pose proof (created_list k slot s cs Hslot Hlist id junk rest) as Hlist1.
  assert (Hcount : to_ulong (channel_count s + 1) = channel_count s + 1).
  { unfold to_ulong. apply Z.mod_small. rewrite MAX_CHANNELS_eq in Hcap. lia. }
  rewrite Hcount in Hslot1.
  set (c1 := Channel id (junk_message junk) 0 (channels s)) in *.
  destruct (IH (created k slot s id junk rest)
               (Slot (Some (length (heap k))) (channel_count s + 1)
                     (minor s) (slot_next s))
               ((length (heap k), c1) :: cs))
    as (ps & k' & s' & cs' & Hrun & Hps & Hlen & Hslot' & Hlist' & Hcount' & Hids);
    [done|done|simpl; lia|done| |simpl; lia|done|].
  { intros id' Hin [Heq|Hin']%elem_of_cons.
    - simpl in Heq. by subst id'.
    - eapply Hnew; [|exact Hin']. apply elem_of_cons; by right. }
  exists (Some (length (heap k)) :: ps), k', s', cs'. split_and!.
  - simpl. erewrite bind_Ret by exact Hstep. by erewrite bind_Ret by exact Hrun.
  - by constructor.
  - simpl. by rewrite Hlen.
  - done.
  - done.
  - rewrite Hcount'. simpl. lia.
  - intros id'. rewrite Hids. unfold chan_ids. simpl.
    rewrite !elem_of_cons. tauto.
Qed.

(** C5. For every slot: creating channels for distinct new ids up to the
    limit of [2^20] (the count reaching exactly [2^20], memory being
    served) succeeds at every call; from then on a call with a further
    distinct id returns NULL and logs that the maximum is exceeded,
    changing nothing else (no channel created, count and slot as before,
    allocator untouched), while a call with an existing id still returns
    that channel and changes nothing. *)
Theorem channel_cap k slot s cs ids :
  heap k !! slot = Some (OSlot s) → chan_list (heap k) (channels s) cs →
  0 ≤ channel_count s → NoDup ids → (∀ id, id ∈ ids → id ∉ chan_ids cs) →
  channel_count s + Z.of_nat (length ids) = MAX_CHANNELS →
  served (allocator k) (length ids) →
  ∃ ps k' s',
    create_channels slot ids k = Ret ps k' ∧
    Forall (λ p, p ≠ NULL) ps ∧ length ps = length ids ∧
    heap k' !! slot = Some (OSlot s') ∧ channel_count s' = 2 ^ 20 ∧
    (∀ id, id ∉ ids → id ∉ chan_ids cs →
       get_or_create_channel slot id k' =
         Ret NULL (Kernel (heap k') (slots k') (allocator k')
                          (klog k' ++ [MsgExceededMaxChannels]))) ∧
    (∀ id, id ∈ ids ∨ id ∈ chan_ids cs →
       ∃ a c, get_or_create_channel slot id k' = Ret (Some a) k' ∧
              heap k' !! a = Some (OChannel c) ∧ channel_id c = id).
Proof.
  intros Hslot Hlist Hpos Hnd Hnew Hcap Hmem.
  destruct (create_channels_spec slot ids k s cs)
    as (ps & k' & s' & cs' & Hrun & Hps & Hlen & Hslot' & Hlist' & Hcount' & Hids);
    [done|done|done|done|done|lia|done|].
  exists ps, k', s'. split_and!; [done|done|done|done| | |].
  - rewrite Hcount', Hcap. reflexivity.
  - intros id Hid1 Hid2.
    apply (get_or_create_channel_full k' slot s' cs' Hslot' Hlist').
    + rewrite Hids. tauto.
    + lia.
  - intros id Hid.
    destruct (get_or_create_channel_existing k' slot s' cs' Hslot' Hlist' id)
      as (a & c & ? & _ & ? & ?); [by apply Hids|]. eauto.
Qed.

Lemma all_ids_length : Z.of_nat (length all_ids) = MAX_CHANNELS.
Proof.
  unfold all_ids. rewrite length_fmap, length_seq. by apply Z2Nat.id.
Qed.

Lemma all_ids_NoDup : NoDup all_ids.
Proof. apply (NoDup_fmap_2 Z.of_nat), NoDup_seq. Qed.

(** A slot without channels and the ids [1 .. 2^20]. *)
Lemma channel_cap_witness :
  ∃ ps k' s',
    create_channels 0 all_ids (one_slot (length all_ids)) = Ret ps k' ∧
    Forall (λ p, p ≠ NULL) ps ∧ length ps = length all_ids ∧
    heap k' !! 0%nat = Some (OSlot s') ∧ channel_count s' = 2 ^ 20 ∧
    (∀ id, id ∉ all_ids → id ∉ chan_ids [] →
       get_or_create_channel 0 id k' =
         Ret NULL (Kernel (heap k') (slots k') (allocator k')
                          (klog k' ++ [MsgExceededMaxChannels]))) ∧
    (∀ id, id ∈ all_ids ∨ id ∈ chan_ids [] →
       ∃ a c, get_or_create_channel 0 id k' = Ret (Some a) k' ∧
              heap k' !! a = Some (OChannel c) ∧ channel_id c = id).
Proof.
  apply (channel_cap (one_slot (length all_ids)) 0 (Slot NULL 0 0 NULL) []
           all_ids).
  - reflexivity.
  - reflexivity.
  - reflexivity.
  - exact all_ids_NoDup.
  - intros id _. apply not_elem_of_nil.
  - exact all_ids_length.
  - exact (served_plenty (length all_ids)).
Defined.

(** C7. The lookup half holds on the driver
    ([get_or_create_channel_existing]: an existing id is returned and the
    state, so the stored message and length, is unchanged). The selection
    half does not: with "hello" written to channel 7 through a session, a
    second select-channel of id 7 on that same session hands the channel to
    [get_or_create_channel] as the slot. *)
Theorem second_select_uses_channel_as_slot :
  (f ← open 0; f ← select_channel f 7; device_write f hello 5 ;;
   device_ioctl f MSG_SLOT_CHANNEL 7) (boot (plenty 2)) = Undefined.
Proof. vm_compute. reflexivity. Qed.

(** Selecting the id through another session of the same slot, which still
    points to the slot, finds the channel with its message. *)
Remark other_session_sees_message :
  (g ← open 0; g ← select_channel g 7; device_read g 128 128)
    (demo_kernel hello) = Ret (5, hello) (demo_kernel hello).
Proof. vm_compute. reflexivity. Qed.

(** ** The channel invariant is kept by every file operation *)

Lemma boot_ok alloc : kernel_ok (boot alloc).
Proof. intros a c H. by apply lookup_nil_Some in H || done. Qed.

Lemma junk_message_length junk : length (junk_message junk) = 128%nat.
Proof. unfold junk_message. by rewrite length_fmap, length_seq. Qed.

Lemma written_ok c buf count len :
  0 ≤ len ≤ 128 → 1 ≤ count ≤ 128 → channel_ok (written c buf count len).
Proof.
  intros Hlen Hcount. split; [|done]. unfold written, memset_message.
  cbn [message]. rewrite length_app, length_take, length_drop, length_replicate.
  lia.
Qed.

Lemma device_read_keeps_ok f writable count k r k' :
  kernel_ok k → device_read f writable count k = Ret r k' → kernel_ok k'.
Proof. intros Hok Hr. by rewrite (device_read_pure _ _ _ _ _ _ Hr). Qed.

Lemma device_write_keeps_ok f buf count k r k' :
  kernel_ok k → device_write f buf count k = Ret r k' → kernel_ok k'.
Proof.
  intros Hok Hw. unfold device_write in Hw.
  destruct (private_data f) as [a|] eqn:Hf; [|by inversion Hw; subst].
  destruct (Z.eqb_spec count 0); [by inversion Hw; subst|].
  destruct (Z.ltb_spec 128 count); [by inversion Hw; subst|].
  simpl in Hw. apply bind_inv in Hw as (c & k1 & Hload & Hw).
  unfold load_channel in Hload.
  destruct (heap k !! a) as [[|c0]|] eqn:Hc; simplify_eq.
  assert (Hstore : ∀ len, 0 ≤ len ≤ 128 → 1 ≤ count ≤ 128 →
            kernel_ok (set_heap (<[a := OChannel (written c buf count len)]>
                                   (heap k1)) k1)).
  { intros len Hlen Hcount b cb [(-> & [= <-] & _)|[_ Hb]]%list_lookup_insert_Some.
    - by apply written_ok.
    - by eapply Hok. }
  unfold copy_from_user in Hw.
  destruct (Z.eqb_spec (count - Z.of_nat (Z.to_nat count `min` length buf)) 0);
    simpl in Hw; inversion Hw; subst.
  - apply (Hstore count); lia.
  - destruct (decide (0 ≤ count)) as [Hpos|Hneg].
    + apply (Hstore (message_len c)); [|lia]. by eapply Hok.
    + intros b cb [(-> & [= <-] & _)|[_ Hb]]%list_lookup_insert_Some;
        [|by eapply Hok].
      destruct (Hok b c Hc) as [Hl Hr]. split; [|done]. cbn [message].
      replace (Z.to_nat count) with 0%nat by lia. simpl. done.
Qed.

Lemma get_or_create_channel_keeps_ok slot id k p k' :
  kernel_ok k → get_or_create_channel slot id k = Ret p k' → kernel_ok k'.
Proof.
  intros Hok H. unfold get_or_create_channel in H.
  apply bind_inv in H as (s & k1 & Hload & H).
  unfold load_slot in Hload.
  destruct (heap k !! slot) as [[s0|]|] eqn:Hs; simplify_eq.
  apply bind_inv in H as (h & k2 & [= <- <-] & H).
  destruct (find_channel _ _ _ _) as [a|link| |]; try done.
  { by inversion H; subst. }
  destruct (MAX_CHANNELS <=? channel_count s).
  { apply bind_inv in H as ([] & k2 & [= <-] & [= _ <-]). exact Hok. }
  apply bind_inv in H as (new & k2 & Halloc & H).
  unfold kmalloc in Halloc.
  destruct (allocator k1) as [|[|junk] rest]; simplify_eq.
  - apply bind_inv in H as ([] & k3 & [= <-] & [= _ <-]). exact Hok.
  - apply bind_inv in H as ([] & k3 & [= <-] & [= _ <-]). exact Hok.
  - apply bind_inv in H as ([] & k3 & [= <-] & [= _ <-]).
    intros a c [(_ & ? & _)|[_ Ha]]%list_lookup_insert_Some; [done|].
    apply lookup_app_Some in Ha as [Ha|[_ Ha]]; [by eapply Hok|].
    apply list_lookup_singleton_Some in Ha as [_ [= <-]].
    split; [apply junk_message_length|simpl; lia].
Qed.

Lemma device_ioctl_keeps_ok f ioctl_num ioctl_param k r k' :
  kernel_ok k → device_ioctl f ioctl_num ioctl_param k = Ret r k' →
  kernel_ok k'.
Proof.
  intros Hok H. unfold device_ioctl in H.
  destruct (_ || _); [by inversion H; subst|].
  destruct (private_data f) as [slot|]; [|by inversion H; subst].
  apply bind_inv in H as (p & k1 & Hgoc & H).
  apply get_or_create_channel_keeps_ok in Hgoc; [|done].
  destruct p; by inversion H; subst.
Qed.

Lemma device_open_keeps_ok mnr f0 k r k' :
  kernel_ok k → device_open mnr f0 k = Ret r k' → kernel_ok k'.
Proof.
  intros Hok H. unfold device_open in H.
  apply bind_inv in H as (h & k1 & [= <- <-] & H).
  apply bind_inv in H as (head & k1 & [= <- <-] & H).
  destruct (find_slot _ _ _ _ _) as [a|link| |]; try done.
  { by inversion H; subst. }
  apply bind_inv in H as (slot & k1 & Halloc & H).
  unfold kmalloc in Halloc.
  destruct (allocator k) as [|[|junk] rest]; simplify_eq.
  - apply bind_inv in H as ([] & k3 & [= <-] & [= _ <-]). exact Hok.
  - apply bind_inv in H as ([] & k3 & [= <-] & [= _ <-]). exact Hok.
  - apply bind_inv in H as ([] & k3 & Hlink & [= _ <-]).
    assert (Hnew : kernel_ok
              (Kernel (heap k ++ [OSlot (Slot NULL 0 mnr NULL)]) (slots k)
                      rest (klog k))).
    { intros a c Ha. simpl in Ha.
      apply lookup_app_Some in Ha as [Ha|[_ Ha]]; [by eapply Hok|].
      by apply list_lookup_singleton_Some in Ha as [_ ?]. }
    destruct link as [b|]; simpl in Hlink.
    + apply bind_inv in Hlink as (s' & k4 & Hload & [= <-]).
      unfold load_slot in Hload.
      destruct (_ !! b) as [[|]|]; simplify_eq.
      intros a c [(_ & ? & _)|[_ Ha]]%list_lookup_insert_Some; [done|].
      by eapply Hnew.
    + inversion Hlink; subst. exact Hnew.
Qed.

(** * Further properties of the driver *)

(** ** What a call of [get_or_create_channel] can do *)

Lemma find_channel_Found fuel h cur id a :
  find_channel fuel h cur id = Found a →
  ∃ c, h !! a = Some (OChannel c) ∧ channel_id c = id.
Proof.
  revert cur. induction fuel as [|fuel IH]; intros [b|] H; simpl in H; try done.
  destruct (h !! b) as [[|c]|] eqn:Hb; try done.
  destruct (Z.eqb_spec (channel_id c) id); [|by eapply IH].
  inversion H; subst. eauto.
Qed.

(** The four ways in which [get_or_create_channel] returns. *)
Lemma get_or_create_channel_inv slot id k p k' :
  get_or_create_channel slot id k = Ret p k' →
  ∃ s, heap k !! slot = Some (OSlot s) ∧
    ((∃ a c, p = Some a ∧ k' = k ∧
             heap k !! a = Some (OChannel c) ∧ channel_id c = id) ∨
     (p = NULL ∧ MAX_CHANNELS ≤ channel_count s ∧
      k' = Kernel (heap k) (slots k) (allocator k)
                  (klog k ++ [MsgExceededMaxChannels])) ∨
     (p = NULL ∧ channel_count s < MAX_CHANNELS ∧
      (allocator k = [] ∨ ∃ rest, allocator k = KmFail :: rest) ∧
      k' = Kernel (heap k) (slots k) (tail (allocator k))
                  (klog k ++ [MsgFailedAllocChannel])) ∨
     (∃ junk rest, p = Some (length (heap k)) ∧
        channel_count s < MAX_CHANNELS ∧ allocator k = KmOk junk :: rest ∧
        k' = created k slot s id junk rest)).
Proof.
  intros H. unfold get_or_create_channel in H.
  apply bind_inv in H as (s & k1 & Hload & H).
  unfold load_slot in Hload.
  destruct (heap k !! slot) as [[s0|]|] eqn:Hs; simplify_eq.
  exists s. split; [done|].
  apply bind_inv in H as (h & k2 & [= <- <-] & H).
  destruct (find_channel _ _ _ _) as [a|link| |] eqn:Hfind; try done.
  { inversion H; subst. left.
    apply find_channel_Found in Hfind as (c & ? & ?). by exists a, c. }
  right. destruct (Z.leb_spec MAX_CHANNELS (channel_count s)).
  { apply bind_inv in H as ([] & k2 & [= <-] & [= <- <-]). by left. }
  right. apply bind_inv in H as (new & k2 & Halloc & H).
  unfold kmalloc in Halloc. destruct k1 as [h sl al lg]. simpl in *.
  destruct al as [|[|junk] rest]; simplify_eq.
  - apply bind_inv in H as ([] & k3 & [= <-] & [= <- <-]). left. eauto.
  - apply bind_inv in H as ([] & k3 & [= <-] & [= <- <-]). left.
    split_and!; eauto.
  - apply bind_inv in H as ([] & k3 & [= <-] & [= <- <-]). right.
    by exists junk, rest.
Qed.

(** ** device_ioctl: failure and success *)

(** X1. Whenever [device_ioctl] returns a non-zero status, the status is
    [-EINVAL], the file keeps its [private_data], and neither the object
    store nor the slot list has changed: a failed selection creates nothing
    and leaves the binding as it was. *)
Theorem device_ioctl_failure f ioctl_num ioctl_param k r f' k' :
  device_ioctl f ioctl_num ioctl_param k = Ret (r, f') k' → r ≠ 0 →
  r = - EINVAL ∧ f' = f ∧ heap k' = heap k ∧ slots k' = slots k.
Proof.
  intros H Hr. unfold device_ioctl in H.
  destruct (_ || _); [by inversion H; subst|].
  destruct (private_data f) as [slot|]; [|by inversion H; subst].
  apply bind_inv in H as (p & k1 & Hgoc & H).
  destruct p as [a|]; [by inversion H; subst|]. inversion H; subst.
  apply get_or_create_channel_inv in Hgoc
    as (s & Hs & [(a & c & ? & _)|[(_ & _ & ->)|[(_ & _ & _ & ->)|
                  (junk & rest & ? & _)]]]); done.
Qed.

(** With no memory left, selecting a new channel fails and logs the
    allocation error. *)
Lemma device_ioctl_failure_witness :
  - EINVAL = - EINVAL ∧ fresh_file = fresh_file ∧
  heap (Kernel (heap (one_slot 0)) (slots (one_slot 0)) []
               [MsgFailedAllocChannel]) = heap (one_slot 0) ∧
  slots (Kernel (heap (one_slot 0)) (slots (one_slot 0)) []
                [MsgFailedAllocChannel]) = slots (one_slot 0).
Proof.
  apply (device_ioctl_failure fresh_file MSG_SLOT_CHANNEL 7 (one_slot 0)
           (- EINVAL) fresh_file
           (Kernel (heap (one_slot 0)) (slots (one_slot 0)) []
                   [MsgFailedAllocChannel])); [reflexivity|done].
Defined.

(** ** device_write and device_read: every outcome *)

(** The ways in which [device_write] returns, with the state it leaves. *)
Lemma device_write_inv f buf count k r k' :
  0 ≤ count → device_write f buf count k = Ret r k' →
  (r = - EINVAL ∧ private_data f = NULL ∧ k' = k) ∨
  (r = - EMSGSIZE ∧ (count = 0 ∨ 128 < count) ∧ k' = k) ∨
  (∃ a c, private_data f = Some a ∧ heap k !! a = Some (OChannel c) ∧
     count ≠ 0 ∧ count ≤ 128 ∧
     ((r = -1 ∧ (length buf < Z.to_nat count)%nat ∧
       k' = set_heap (<[a := OChannel (written c buf count (message_len c))]>
                        (heap k)) k) ∨
      (r = count ∧ 1 ≤ count ∧ (Z.to_nat count ≤ length buf)%nat ∧
       k' = set_heap (<[a := OChannel (written c buf count count)]>
                        (heap k)) k))).
Proof.
  intros Hpos H. unfold device_write in H.
  destruct (private_data f) as [a|] eqn:Hf;
    [|left; by inversion H; subst].
  right.
  destruct (Z.eqb_spec count 0); [left; inversion H; subst; auto|].
  destruct (Z.ltb_spec 128 count); [left; inversion H; subst; auto|].
  right. simpl in H. apply bind_inv in H as (c & k1 & Hload & H).
  unfold load_channel in Hload.
  destruct (heap k !! a) as [[|c0]|] eqn:Hc; simplify_eq.
  exists a, c. split_and!; [done..|].
  unfold copy_from_user in H.
  destruct (Z.eqb_spec (count - Z.of_nat (Z.to_nat count `min` length buf)) 0);
    simpl in H; inversion H; subst; clear H.
  - right. rewrite to_ssize_small by lia. split_and!; [done|lia|lia|done].
  - left. split_and!; [done|lia|done].
Qed.

(** X4. Isolation: a write through a file bound to the channel at [a],
    whatever it returns, leaves every other object of the store as it was,
    keeps the slot list head, the allocator and the log, and keeps the id
    and the [next] link of the channel at [a]. *)
Theorem device_write_frame f a buf count k r k' :
  private_data f = Some a → 0 ≤ count →
  device_write f buf count k = Ret r k' →
  slots k' = slots k ∧ allocator k' = allocator k ∧ klog k' = klog k ∧
  length (heap k') = length (heap k) ∧
  (∀ b, b ≠ a → heap k' !! b = heap k !! b) ∧
  (∀ c, heap k !! a = Some (OChannel c) →
     ∃ c', heap k' !! a = Some (OChannel c') ∧
           channel_id c' = channel_id c ∧ next c' = next c).
Proof.
  intros Hf Hpos H.
  apply device_write_inv in H
    as [(_ & _ & ->)|[(_ & _ & ->)|(a' & c & Hf' & Hc & _ & _ & H)]];
    [split_and!; eauto..| |done].
  assert (a' = a) as -> by congruence.
  assert (Ha : (a < length (heap k))%nat) by (by eapply lookup_lt_Some).
  destruct H as [(_ & _ & ->)|(_ & _ & _ & ->)]; simpl;
    (split_and!; [done|done|done|by rewrite length_insert| |]);
    try (intros b Hb; by rewrite list_lookup_insert_ne);
    intros c0 Hc0; simplify_eq; eexists;
    (split; [by apply list_lookup_insert_eq|done]).
Qed.

(** The slot at address 0 is untouched by a write to the channel at 1. *)
Lemma device_write_frame_witness :
  slots (demo_kernel hello) = slots (demo_kernel []) ∧
  allocator (demo_kernel hello) = allocator (demo_kernel []) ∧
  klog (demo_kernel hello) = klog (demo_kernel []) ∧
  length (heap (demo_kernel hello)) = length (heap (demo_kernel [])) ∧
  (∀ b, b ≠ 1%nat →
     heap (demo_kernel hello) !! b = heap (demo_kernel []) !! b) ∧
  (∀ c, heap (demo_kernel []) !! 1%nat = Some (OChannel c) →
     ∃ c', heap (demo_kernel hello) !! 1%nat = Some (OChannel c') ∧
           channel_id c' = channel_id c ∧ next c' = next c).
Proof.
  apply (device_write_frame demo_file 1 hello 5 (demo_kernel []) 5
           (demo_kernel hello)); [reflexivity|lia|vm_compute; reflexivity].
Defined.

(** X5. A write replaces, it never appends or merges: after any earlier
    write through the file (successful or not), a write of a valid size
    from a readable buffer returns its count and leaves exactly the state
    it would have left without the earlier write, and a read then returns
    the bytes of this last write. *)
Theorem write_overwrites f a c buf1 count1 buf2 count2 k r1 k1 writable cap :
  private_data f = Some a → heap k !! a = Some (OChannel c) →
  0 ≤ count1 → device_write f buf1 count1 k = Ret r1 k1 →
  1 ≤ count2 ≤ 128 → (Z.to_nat count2 ≤ length buf2)%nat →
  count2 ≤ cap → (Z.to_nat count2 ≤ writable)%nat →
  ∃ k2,
    device_write f buf2 count2 k1 = Ret count2 k2 ∧
    device_write f buf2 count2 k = Ret count2 k2 ∧
    device_read f writable cap k2
      = Ret (count2, take (Z.to_nat count2) buf2) k2.
Proof.
  intros Hf Hc Hpos H1 Hcount Hbuf Hcap Hw.
  assert (Ha : (a < length (heap k))%nat) by (by eapply lookup_lt_Some).
  set (c2 := written c buf2 count2 count2).
  set (k2 := set_heap (<[a := OChannel c2]> (heap k)) k).
  assert (Hread : device_read f writable cap k2
                  = Ret (count2, take (Z.to_nat count2) buf2) k2).
  { assert (Hc2 : heap k2 !! a = Some (OChannel c2))
      by (simpl; by apply list_lookup_insert_eq).
    rewrite (device_read_ok k2 f a c2 Hf Hc2 writable cap);
      unfold c2, written; cbn [message message_len]; [|lia..].
    rewrite Nat.min_l by done.
    rewrite take_app_le by (rewrite length_take; lia).
    by rewrite take_take, Nat.min_id. }
  exists k2. split_and!; [|by apply (device_write_ok k f a c)|done].
  apply device_write_inv in H1
    as [(_ & _ & ->)|[(_ & _ & ->)|(a' & c' & Hf' & Hc' & _ & _ & H)]];
    [by apply (device_write_ok k f a c)..| |done].
  simplify_eq.
  assert (Hsame : ∀ len, device_write f buf2 count2
             (set_heap (<[a := OChannel (written c buf1 count1 len)]>
                          (heap k)) k) = Ret count2 k2).
  { intros len.
    rewrite (device_write_ok _ f a (written c buf1 count1 len) Hf);
      [|simpl; by apply list_lookup_insert_eq|done|done].
    unfold k2, set_heap. simpl. by rewrite list_insert_insert_eq. }
  destruct H as [(_ & _ & ->)|(_ & _ & _ & ->)]; apply Hsame.
Qed.

(** "hello" written over the cleared demo channel, and over "hello". *)
Lemma write_overwrites_witness :
  ∃ k2,
    device_write demo_file hello 5 clobbered = Ret 5 k2 ∧
    device_write demo_file hello 5 (demo_kernel hello) = Ret 5 k2 ∧
    device_read demo_file 128 128 k2 = Ret (5, take (Z.to_nat 5) hello) k2.
Proof.
  apply (write_overwrites demo_file 1 (demo_channel hello) [] 3 hello 5
           (demo_kernel hello) (-1) clobbered 128 128);
    [reflexivity|reflexivity|lia|vm_compute; reflexivity|lia|simpl; lia|lia|lia].
Defined.


Lemma demo_kernel_ok msg : (length msg ≤ 128)%nat → kernel_ok (demo_kernel msg).
Proof.
  intros Hlen a c Ha. destruct a as [|[|a]]; simpl in Ha; simplify_eq.
  split; simpl; [|lia]. rewrite length_app, length_replicate. lia.
Qed.


(** ** The slot list *)

Lemma slot_list_det h p ms1 ms2 :
  slot_list h p ms1 → slot_list h p ms2 → ms1 = ms2.
Proof.
  revert p ms2. induction ms1 as [|[a m] ms1 IH]; intros p [|[a' m'] ms2];
    simpl; unfold NULL.
  - done.
  - intros -> [? _]. done.
  - intros [-> _] ?. done.
  - intros (-> & s & Hs & <- & H1) ([= <-] & s' & Hs' & <- & H2). simplify_eq.
    f_equal. by eapply IH.
Qed.

Lemma slot_list_suffix h p ms1 a m ms2 :
  slot_list h p (ms1 ++ (a, m) :: ms2) → slot_list h (Some a) ((a, m) :: ms2).
Proof.
  revert p. induction ms1 as [|[a' m'] ms1 IH]; intros p; simpl.
  - by intros (_ & ?).
  - intros (_ & s & _ & _ & H). by eapply IH.
Qed.

Lemma slot_list_lookup h p ms a m :
  slot_list h p ms → (a, m) ∈ ms → ∃ s, h !! a = Some (OSlot s) ∧ minor s = m.
Proof.
  revert p. induction ms as [|[a' m'] ms IH]; intros p; simpl.
  - by intros _ ?%elem_of_nil.
  - intros (_ & s & Hs & Hm & Hrest) [[= -> ->]|Hin]%elem_of_cons;
      [eauto|by eapply IH].
Qed.

Lemma slot_list_NoDup h p ms : slot_list h p ms → NoDup ms.*1.
Proof.
  revert p. induction ms as [|[a m] ms IH]; intros p; simpl; [constructor|].
  intros (-> & s & Hs & Hm & Hrest). constructor; [|by eapply IH].
  intros ((a' & m') & Heq & (ms1 & ms2 & ->)%list_elem_of_split)%list_elem_of_fmap.
  simpl in Heq. subst a'.
  pose proof (slot_list_suffix _ _ _ _ _ _ Hrest) as Hsuf.
  assert (Hfull : slot_list h (Some a) ((a, m) :: ms1 ++ (a, m') :: ms2))
    by (simpl; eauto).
  pose proof (slot_list_det _ _ _ _ Hsuf Hfull) as Heq.
  apply (f_equal length) in Heq. simpl in Heq.
  rewrite length_app in Heq. simpl in Heq. lia.
Qed.

Lemma slot_list_length h p ms : slot_list h p ms → (length ms ≤ length h)%nat.
Proof.
  intros Hl.
  enough (length ms.*1 ≤ length (seq 0 (length h)))%nat as H
    by (by rewrite length_fmap, length_seq in H).
  apply submseteq_length, NoDup_submseteq; [by eapply slot_list_NoDup|].
  intros a ((a' & m) & -> & Hin)%list_elem_of_fmap. simpl.
  apply elem_of_seq. split; [lia|]. simpl.
  destruct (slot_list_lookup _ _ _ _ _ Hl Hin) as (s & Hs & _).
  by eapply lookup_lt_Some.
Qed.

(** The list is kept by changes of the store that keep the minor and the
    [next] link of its slots. *)
Lemma slot_list_frame h h' p ms :
  slot_list h p ms →
  (∀ a m s, (a, m) ∈ ms → h !! a = Some (OSlot s) →
     ∃ s', h' !! a = Some (OSlot s') ∧ minor s' = minor s ∧
           slot_next s' = slot_next s) →
  slot_list h' p ms.
Proof.
  revert p. induction ms as [|[a m] ms IH]; intros p; simpl; [done|].
  intros (-> & s & Hs & Hm & Hrest) Hsame. split; [done|].
  destruct (Hsame a m s) as (s' & Hs' & Hm' & Hn'); [by left|done|].
  exists s'. split_and!; [done|congruence|]. rewrite Hn'.
  apply IH; [done|]. intros a' m' s0 Hin. apply (Hsame a' m' s0). by right.
Qed.

Lemma last_link_cons a m ms :
  last_link ((a, m) :: ms) = end_link (Some a) ms.
Proof.
  unfold end_link, last_link. destruct ms as [|[b mb] ms]; [done|].
  rewrite last_cons_cons.
  destruct (last ((b, mb) :: ms)) as [[]|] eqn:Hlast; [done|].
  by apply last_None in Hlast.
Qed.

Lemma find_slot_absent fuel h link p ms mnr :
  slot_list h p ms → (length ms ≤ fuel)%nat → mnr ∉ ms.*2 →
  find_slot fuel h link p mnr = NotFound (end_link link ms).
Proof.
  revert fuel link p. induction ms as [|[a m] ms IH]; intros fuel link p; simpl.
  - intros -> _ _. by destruct fuel.
  - intros (-> & s & Hs & Hm & Hrest) Hfuel Hnot.
    destruct fuel as [|fuel]; [lia|]. simpl. rewrite Hs.
    apply not_elem_of_cons in Hnot as [Hne Hnot]. simpl in Hne.
    destruct (Z.eqb_spec (minor s) mnr); [congruence|].
    rewrite (IH fuel (Some a) _ Hrest); [|simpl in Hfuel; lia|done].
    unfold end_link at 2. rewrite last_link_cons.
    unfold end_link. by destruct (last_link ms).
Qed.

Lemma find_slot_present fuel h link p ms mnr :
  slot_list h p ms → (length ms ≤ fuel)%nat → mnr ∈ ms.*2 →
  ∃ a, find_slot fuel h link p mnr = Found a ∧ (a, mnr) ∈ ms.
Proof.
  revert fuel link p. induction ms as [|[a m] ms IH]; intros fuel link p; simpl.
  - by intros _ _ ?%elem_of_nil.
  - intros (-> & s & Hs & Hm & Hrest) Hfuel Hin.
    destruct fuel as [|fuel]; [lia|]. simpl. rewrite Hs.
    destruct (Z.eqb_spec (minor s) mnr) as [Heq|Hne].
    { exists a. split; [done|]. apply elem_of_cons. left. congruence. }
    apply elem_of_cons in Hin as [Hin|Hin]; [simpl in Hin; congruence|].
    destruct (IH fuel (Some a) _ Hrest ltac:(lia) Hin) as (a' & ? & ?).
    exists a'. split; [done|]. apply elem_of_cons. by right.
Qed.

Lemma slot_list_snoc h p ms b mb sb new :
  slot_list h p ms → last ms = Some (b, mb) → h !! b = Some (OSlot sb) →
  slot_next new = NULL →
  slot_list (<[b := OSlot (Slot (channels sb) (channel_count sb) (minor sb)
                                (Some (length h)))]> (h ++ [OSlot new]))
            p (ms ++ [(length h, minor new)]).
Proof.
  intros Hlist Hlast Hb Hnew. revert p Hlist Hlast.
  assert (Hblt : (b < length h)%nat) by (by eapply lookup_lt_Some).
  induction ms as [|[a m] ms IH]; intros p Hlist Hlast; [done|].
  pose proof (slot_list_NoDup _ _ _ Hlist) as Hnd.
  rewrite fmap_cons in Hnd. apply NoDup_cons in Hnd as [Hnot _].
  simpl in Hlist. destruct Hlist as (-> & s & Hs & Hm & Hrest).
  assert (Halt : (a < length h)%nat) by (by eapply lookup_lt_Some).
  simpl. split; [done|].
  destruct ms as [|[a2 m2] ms].
  - simpl in Hlast. simplify_eq. eexists. split_and!.
    + apply list_lookup_insert_eq. rewrite length_app. simpl. lia.
    + done.
    + simpl. split; [done|]. exists new. split_and!; [|done|done].
      rewrite list_lookup_insert_ne by lia.
      by rewrite lookup_app_r, Nat.sub_diag by lia.
  - rewrite last_cons_cons in Hlast.
    assert (a ≠ b).
    { intros ->. apply Hnot.
      apply (list_elem_of_fmap_2 fst _ (b, mb)).
      by apply last_Some_elem_of. }
    exists s. split_and!; [|done|by apply IH].
    rewrite list_lookup_insert_ne by done. by apply lookup_app_l_Some.
Qed.

Lemma slot_list_linked h p ms mnr :
  slot_list h p ms →
  slot_list (linked h ms mnr) (if ms is [] then Some (length h) else p)
            (ms ++ [(length h, mnr)]).
Proof.
  intros Hlist. unfold linked, last_link.
  destruct (last ms) as [[b mb]|] eqn:Hlast; simpl.
  - assert (Hin : (b, mb) ∈ ms) by (by apply last_Some_elem_of).
    destruct (slot_list_lookup _ _ _ _ _ Hlist Hin) as (sb & Hb & _).
    rewrite (lookup_app_l_Some _ _ _ _ Hb).
    destruct ms; [done|].
    by apply (slot_list_snoc h p _ b mb sb (Slot NULL 0 mnr NULL)).
  - apply last_None in Hlast as ->. simpl. split; [done|].
    exists (Slot NULL 0 mnr NULL). split_and!; [|done|done].
    by rewrite lookup_app_r, Nat.sub_diag by lia.
Qed.

Lemma linked_length h ms mnr : length (linked h ms mnr) = S (length h).
Proof.
  unfold linked. destruct (last_link ms) as [b|];
    [destruct (_ !! b) as [[|]|]|]; rewrite ?length_insert, length_app;
    simpl; lia.
Qed.

(** Linking a slot changes no channel and keeps the channels, count and
    minor of every slot. *)
Lemma linked_lookup h ms mnr a :
  (a < length h)%nat →
  (∀ c, h !! a = Some (OChannel c) → linked h ms mnr !! a = Some (OChannel c)) ∧
  (∀ s, h !! a = Some (OSlot s) →
     ∃ s', linked h ms mnr !! a = Some (OSlot s') ∧
           channels s' = channels s ∧ channel_count s' = channel_count s ∧
           minor s' = minor s).
Proof.
  intros Ha. unfold linked.
  destruct (last_link ms) as [b|]; last first.
  { split; intros x Hx; rewrite lookup_app_l by done; eauto. }
  destruct ((h ++ _) !! b) as [[sb|]|] eqn:Hb;
    try (split; intros x Hx; rewrite lookup_app_l by done; eauto).
  destruct (decide (a = b)) as [->|Hne].
  - rewrite lookup_app_l in Hb by done. split; intros x Hx; simplify_eq.
    eexists. split; [apply list_lookup_insert_eq; rewrite length_app; lia|].
    done.
  - split; intros x Hx; rewrite list_lookup_insert_ne, lookup_app_l by done;
      eauto.
Qed.

Lemma linked_new h p ms mnr :
  slot_list h p ms →
  linked h ms mnr !! length h = Some (OSlot (Slot NULL 0 mnr NULL)).
Proof.
  intros Hlist.
  pose proof (slot_list_linked h p ms mnr Hlist) as Hl.
  assert (Hin : (length h, mnr) ∈ ms ++ [(length h, mnr)])
    by (apply elem_of_app; right; by left).
  destruct (slot_list_lookup _ _ _ _ _ Hl Hin) as (s & Hs & Hm).
  unfold linked in *. destruct (last_link ms) as [b|] eqn:Hlast; last first.
  { by rewrite lookup_app_r, Nat.sub_diag by lia. }
  unfold last_link in Hlast. destruct (last ms) as [[b' mb]|] eqn:Hlast';
    simplify_eq/=.
  apply last_Some_elem_of in Hlast'.
  destruct (slot_list_lookup _ _ _ _ _ Hlist Hlast') as (sb & Hb & _).
  assert (b < length h)%nat by (by eapply lookup_lt_Some).
  rewrite (lookup_app_l_Some _ _ _ _ Hb).
  rewrite list_lookup_insert_ne by lia.
  by rewrite lookup_app_r, Nat.sub_diag by lia.
Qed.

(** ** device_open *)

Section Registry.

Variables (k : kernel) (ms : list (nat * Z)).
Hypothesis Hlist : slot_list (heap k) (slots k) ms.

Lemma device_open_found mnr :
  mnr ∈ ms.*2 →
  ∃ a s, (∀ f0, device_open mnr f0 k = Ret (0, File (Some a)) k) ∧
         (a, mnr) ∈ ms ∧ heap k !! a = Some (OSlot s) ∧ minor s = mnr.
Proof using Hlist.
  intros Hin.
  destruct (find_slot_present (S (length (heap k))) _ None _ _ mnr Hlist)
    as (a & Hfind & Ha); [|done|].
  { pose proof (slot_list_length _ _ _ Hlist). lia. }
  destruct (slot_list_lookup _ _ _ _ _ Hlist Ha) as (s & Hs & Hm).
  exists a, s. split_and!; [|done..]. intros f0.
  unfold device_open. erewrite bind_Ret by reflexivity.
  erewrite bind_Ret by reflexivity. by rewrite Hfind.
Qed.

Lemma find_slot_new mnr :
  mnr ∉ ms.*2 →
  find_slot (S (length (heap k))) (heap k) None (slots k) mnr
    = NotFound (last_link ms).
Proof using Hlist.
  intros Hnot. rewrite (find_slot_absent _ _ _ _ ms); [|done| |done].
  - unfold end_link. by destruct (last_link ms).
  - pose proof (slot_list_length _ _ _ Hlist). lia.
Qed.

Lemma device_open_fresh mnr f0 junk rest :
  mnr ∉ ms.*2 → allocator k = KmOk junk :: rest →
  device_open mnr f0 k =
    Ret (0, File (Some (length (heap k))))
        (Kernel (linked (heap k) ms mnr)
                (if ms is [] then Some (length (heap k)) else slots k)
                rest (klog k)).
Proof using Hlist.
  intros Hnot Halloc. unfold device_open.
  erewrite bind_Ret by reflexivity. erewrite bind_Ret by reflexivity.
  rewrite (find_slot_new mnr Hnot).
  erewrite bind_Ret by (unfold kmalloc; by rewrite Halloc).
  unfold linked, link_slot, last_link.
  destruct (last ms) as [[b mb]|] eqn:Hlast; simpl.
  - apply last_Some_elem_of in Hlast as Hin.
    destruct (slot_list_lookup _ _ _ _ _ Hlist Hin) as (sb & Hb & _).
    rewrite (lookup_app_l_Some _ _ _ _ Hb).
    erewrite bind_Ret; last first.
    { erewrite bind_Ret;
        [|unfold load_slot; simpl; by rewrite (lookup_app_l_Some _ _ _ _ Hb)].
      reflexivity. }
    destruct ms; [done|]. reflexivity.
  - apply last_None in Hlast. subst ms. reflexivity.
Qed.

Lemma device_open_nomem mnr f0 :
  mnr ∉ ms.*2 → allocator k = [] ∨ (∃ rest, allocator k = KmFail :: rest) →
  device_open mnr f0 k =
    Ret (- ENOMEM, f0)
        (Kernel (heap k) (slots k) (tail (allocator k))
                (klog k ++ [MsgOutOfMemory])).
Proof using Hlist.
  intros Hnot Halloc. unfold device_open.
  erewrite bind_Ret by reflexivity. erewrite bind_Ret by reflexivity.
  rewrite (find_slot_new mnr Hnot).
  destruct Halloc as [Halloc|[rest Halloc]].
  - erewrite bind_Ret by (unfold kmalloc; by rewrite Halloc).
    unfold NULL. cbv [mbind M_bind bind printk mret M_ret ret].
    by rewrite Halloc.
  - erewrite bind_Ret by (unfold kmalloc; by rewrite Halloc).
    rewrite Halloc. reflexivity.
Qed.

End Registry.

Lemma one_slot_list n :
  slot_list (heap (one_slot n)) (slots (one_slot n)) [(0%nat, 0)].
Proof. simpl. split; [done|]. by eexists. Qed.

(** X7. Opening a minor number that has a slot on the list returns 0,
    points the file to that slot and changes nothing in the kernel: no
    second slot is made for the minor. *)
Theorem device_open_existing k ms mnr f0 :
  slot_list (heap k) (slots k) ms → mnr ∈ ms.*2 →
  ∃ a s, device_open mnr f0 k = Ret (0, File (Some a)) k ∧
         (a, mnr) ∈ ms ∧ heap k !! a = Some (OSlot s) ∧ minor s = mnr.
Proof.
  intros Hlist Hin.
  destruct (device_open_found k ms Hlist mnr Hin) as (a & s & H & ?).
  exists a, s. by rewrite H.
Qed.

(** A second open of minor 0. *)
Lemma device_open_existing_witness :
  ∃ a s, device_open 0 (File NULL) (one_slot 0)
           = Ret (0, File (Some a)) (one_slot 0) ∧
         (a, 0) ∈ [(0%nat, 0)] ∧
         heap (one_slot 0) !! a = Some (OSlot s) ∧ minor s = 0.
Proof.
  apply (device_open_existing (one_slot 0) [(0%nat, 0)] 0 (File NULL));
    [apply one_slot_list|by left].
Defined.

(** X8. Opening a minor number that has no slot, memory being available,
    returns 0 and points the file to a new slot, allocated at the end of
    the store and linked at the end of the slot list, with that minor, no
    channels and count 0. Every channel already in the store is unchanged
    and every slot keeps its channels, count and minor. *)
Theorem device_open_new k ms mnr f0 junk rest :
  slot_list (heap k) (slots k) ms → mnr ∉ ms.*2 →
  allocator k = KmOk junk :: rest →
  ∃ k',
    device_open mnr f0 k = Ret (0, File (Some (length (heap k)))) k' ∧
    heap k' !! length (heap k) = Some (OSlot (Slot NULL 0 mnr NULL)) ∧
    length (heap k') = S (length (heap k)) ∧
    slot_list (heap k') (slots k') (ms ++ [(length (heap k), mnr)]) ∧
    allocator k' = rest ∧ klog k' = klog k ∧
    (∀ a c, heap k !! a = Some (OChannel c) →
       heap k' !! a = Some (OChannel c)) ∧
    (∀ a s, heap k !! a = Some (OSlot s) →
       ∃ s', heap k' !! a = Some (OSlot s') ∧ channels s' = channels s ∧
             channel_count s' = channel_count s ∧ minor s' = minor s).
Proof.
  intros Hlist Hnot Halloc. eexists. split.
  { by apply (device_open_fresh k ms Hlist mnr f0 junk rest). }
  simpl. split_and!; [by eapply linked_new|apply linked_length| |done|done| |].
  - pose proof (slot_list_linked _ _ _ mnr Hlist) as Hl. by destruct ms.
  - intros a c Ha. apply linked_lookup; [by eapply lookup_lt_Some|done].
  - intros a s Ha. apply linked_lookup; [by eapply lookup_lt_Some|done].
Qed.

(** Opening minor 1 when only minor 0 has a slot. *)
Lemma device_open_new_witness :
  ∃ k',
    device_open 1 (File NULL) (one_slot 1)
      = Ret (0, File (Some (length (heap (one_slot 1))))) k' ∧
    heap k' !! length (heap (one_slot 1)) = Some (OSlot (Slot NULL 0 1 NULL)) ∧
    length (heap k') = S (length (heap (one_slot 1))) ∧
    slot_list (heap k') (slots k')
      ([(0%nat, 0)] ++ [(length (heap (one_slot 1)), 1)]) ∧
    allocator k' = [] ∧ klog k' = klog (one_slot 1) ∧
    (∀ a c, heap (one_slot 1) !! a = Some (OChannel c) →
       heap k' !! a = Some (OChannel c)) ∧
    (∀ a s, heap (one_slot 1) !! a = Some (OSlot s) →
       ∃ s', heap k' !! a = Some (OSlot s') ∧ channels s' = channels s ∧
             channel_count s' = channel_count s ∧ minor s' = minor s).
Proof.
  apply (device_open_new (one_slot 1) [(0%nat, 0)] 1 (File NULL) (λ _, zero) []);
    [apply one_slot_list| |reflexivity].
  intros [[=]|[]%elem_of_nil]%elem_of_cons.
Defined.

(** X9. Opening a minor number that has no slot when [kmalloc] fails
    returns [-ENOMEM], leaves the file, the store and the slot list as
    they were, and logs the error. *)
Theorem device_open_enomem k ms mnr f0 :
  slot_list (heap k) (slots k) ms → mnr ∉ ms.*2 →
  allocator k = [] ∨ (∃ rest, allocator k = KmFail :: rest) →
  device_open mnr f0 k =
    Ret (- ENOMEM, f0)
        (Kernel (heap k) (slots k) (tail (allocator k))
                (klog k ++ [MsgOutOfMemory])).
Proof. intros Hlist Hnot Halloc. by apply (device_open_nomem k ms). Qed.

(** The first open after boot, without memory. *)
Lemma device_open_enomem_witness :
  device_open 0 (File NULL) (boot []) =
    Ret (- ENOMEM, File NULL)
        (Kernel (heap (boot [])) (slots (boot [])) (tail (allocator (boot [])))
                (klog (boot []) ++ [MsgOutOfMemory])).
Proof.
  apply (device_open_enomem (boot []) [] 0 (File NULL));
    [reflexivity|apply not_elem_of_nil|by left].
Defined.

(** X10. Open is idempotent: after an open of a minor number has returned
    0, every further open of that minor returns 0 with the same slot
    pointer and changes nothing. *)
Theorem device_open_idempotent k ms mnr f0 f k' :
  slot_list (heap k) (slots k) ms →
  device_open mnr f0 k = Ret (0, f) k' →
  ∀ g0, device_open mnr g0 k' = Ret (0, f) k'.
Proof.
  intros Hlist Hopen g0.
  destruct (decide (mnr ∈ ms.*2)) as [Hin|Hnot].
  { destruct (device_open_found k ms Hlist mnr Hin) as (a & s & H & _).
    rewrite H in Hopen. inversion Hopen; subst. apply H. }
  destruct (allocator k) as [|[|junk] rest] eqn:Halloc.
  - rewrite (device_open_nomem k ms Hlist mnr f0 Hnot) in Hopen by (by left).
    by inversion Hopen.
  - rewrite (device_open_nomem k ms Hlist mnr f0 Hnot) in Hopen by eauto.
    by inversion Hopen.
  - rewrite (device_open_fresh k ms Hlist mnr f0 junk rest Hnot Halloc) in Hopen.
    inversion Hopen; subst. clear Hopen.
    set (k' := Kernel _ _ _ _).
    assert (Hl' : slot_list (heap k') (slots k') (ms ++ [(length (heap k), mnr)])).
    { pose proof (slot_list_linked _ _ _ mnr Hlist) as Hl. by destruct ms. }
    destruct (device_open_found k' _ Hl' mnr) as (a & s & H & Ha & _).
    { rewrite fmap_app. apply elem_of_app. right. by left. }
    apply elem_of_app in Ha as [Ha|[[= ->]|[]%elem_of_nil]%elem_of_cons];
      [|apply H].
    exfalso. apply Hnot. by apply (list_elem_of_fmap_2 snd _ (a, mnr)).
Qed.

(** The first open of minor 0 after boot, and a second one. *)
Lemma device_open_idempotent_witness :
  device_open 0 (File NULL) (one_slot 0) = Ret (0, fresh_file) (one_slot 0).
Proof.
  apply (device_open_idempotent (boot (plenty 1)) [] 0 (File NULL));
    reflexivity.
Defined.

(** ** The invariant of the kernel state *)

Lemma kernel_wf_ext k k' :
  heap k' = heap k → slots k' = slots k → kernel_wf k → kernel_wf k'.
Proof.
  intros Hh Hs (Hok & Hlist & Hslots). unfold kernel_wf, kernel_ok.
  by rewrite Hh, Hs.
Qed.

(** Replacing a channel by one with the same id and link keeps every
    channel list, up to the contents of that channel. *)
Lemma chan_list_update h p cs a c0 c' :
  chan_list h p cs → h !! a = Some (OChannel c0) →
  channel_id c' = channel_id c0 → next c' = next c0 →
  ∃ cs', chan_list (<[a := OChannel c']> h) p cs' ∧
         chan_ids cs' = chan_ids cs ∧ length cs' = length cs.
Proof.
  intros Hlist Ha Hid Hnext. revert p Hlist.
  assert (Halt : (a < length h)%nat) by (by eapply lookup_lt_Some).
  induction cs as [|[b cb] cs IH]; intros p Hlist; simpl in Hlist.
  { by exists []. }
  destruct Hlist as (-> & Hb & Hrest).
  destruct (IH _ Hrest) as (cs' & Hl' & Hids' & Hlen').
  destruct (decide (b = a)) as [->|Hne].
  - simplify_eq. exists ((a, c') :: cs'). split_and!.
    + simpl. split_and!; [done|by apply list_lookup_insert_eq|].
      by rewrite Hnext.
    + unfold chan_ids in *. rewrite !fmap_cons. cbn [snd].
      by rewrite Hid, Hids'.
    + simpl. by rewrite Hlen'.
  - exists ((b, cb) :: cs'). split_and!.
    + simpl. split_and!; [done|by rewrite list_lookup_insert_ne|done].
    + unfold chan_ids in *. rewrite !fmap_cons. by rewrite Hids'.
    + simpl. by rewrite Hlen'.
Qed.

Lemma device_write_keeps_wf f buf count k r k' :
  kernel_wf k → 0 ≤ count → device_write f buf count k = Ret r k' →
  kernel_wf k' ∧ length (heap k') = length (heap k).
Proof.
  intros Hwf Hpos Hw.
  pose proof Hwf as (Hok & (ms & Hlist & Hnd) & Hslots).
  pose proof (device_write_inv _ _ _ _ _ _ Hpos Hw)
    as [(_ & _ & ->)|[(_ & _ & ->)|(a & c & Hf & Hc & _ & _ & Hcase)]];
    [done..|].
  assert (∃ c', k' = set_heap (<[a := OChannel c']> (heap k)) k ∧
                channel_id c' = channel_id c ∧ next c' = next c)
    as (c' & Hk' & Hid & Hnext).
  { destruct Hcase as [(_ & _ & ->)|(_ & _ & _ & ->)]; by eexists. }
  split; [|subst k'; simpl; by rewrite length_insert].
  split_and!; [by eapply device_write_keeps_ok| |].
  - exists ms. split; [|done]. subst k'. simpl.
    eapply slot_list_frame; [exact Hlist|].
    intros b m s _ Hb. exists s. split; [|done].
    rewrite list_lookup_insert_ne; [done|]. intros ->. congruence.
  - subst k'. simpl. intros b s Hb.
    apply list_lookup_insert_Some in Hb as [(_ & ? & _)|[_ Hb]]; [done|].
    destruct (Hslots b s Hb) as (cs & Hcs & Hnd' & Hcount & Hmax).
    destruct (chan_list_update _ _ _ a c c' Hcs Hc Hid Hnext)
      as (cs' & Hcs' & Hids & Hlen).
    exists cs'. by rewrite Hids, Hlen.
Qed.

Lemma created_wf k slot s id junk rest cs :
  kernel_wf k → heap k !! slot = Some (OSlot s) →
  chan_list (heap k) (channels s) cs → NoDup (chan_ids cs) →
  channel_count s = Z.of_nat (length cs) → id ∉ chan_ids cs →
  channel_count s < MAX_CHANNELS →
  kernel_wf (created k slot s id junk rest).
Proof.
  intros (Hok & (ms & Hlist & Hnd) & Hslots) Hslot Hcs Hndc Hcount Hid Hlt.
  assert (Hslt : (slot < length (heap k))%nat) by (by eapply lookup_lt_Some).
  assert (Hcnt : to_ulong (channel_count s + 1) = channel_count s + 1).
  { unfold to_ulong. apply Z.mod_small. rewrite MAX_CHANNELS_eq in Hlt. lia. }
  pose proof (created_slot k slot s Hslot id junk rest) as Hslot'.
  pose proof (created_list k slot s cs Hslot Hcs id junk rest) as Hlist'.
  split_and!.
  - intros a c [(_ & ? & _)|[_ Ha]]%list_lookup_insert_Some; [done|].
    apply lookup_app_Some in Ha as [Ha|[_ Ha]]; [by eapply Hok|].
    apply list_lookup_singleton_Some in Ha as [_ [= <-]].
    split; [apply junk_message_length|simpl; lia].
  - exists ms. split; [|done]. eapply slot_list_frame; [exact Hlist|].
    intros b m sb _ Hb. destruct (decide (b = slot)) as [->|Hne].
    + simplify_eq. eexists. split; [exact Hslot'|done].
    + exists sb. split; [|done]. simpl.
      rewrite list_lookup_insert_ne by done. by apply lookup_app_l_Some.
  - intros b sb Hb. destruct (decide (b = slot)) as [->|Hne].
    + rewrite Hslot' in Hb. simplify_eq.
      eexists. split; [exact Hlist'|]. split_and!.
      * unfold chan_ids. simpl. by apply NoDup_cons.
      * simpl. rewrite Hcnt, Hcount. lia.
      * simpl. lia.
    + simpl in Hb. rewrite list_lookup_insert_ne in Hb by done.
      apply lookup_app_Some in Hb as [Hb|[_ Hb]];
        [|by apply list_lookup_singleton_Some in Hb as [_ ?]].
      destruct (Hslots b sb Hb) as (cs2 & Hcs2 & ? & ? & ?).
      exists cs2. split_and!; [|done..].
      eapply chan_list_frame; [exact Hcs2|].
      intros a c Hin. pose proof (chan_list_lookup _ _ _ _ _ Hcs2 Hin) as Ha.
      simpl. rewrite list_lookup_insert_ne by congruence.
      apply lookup_app_l. by eapply lookup_lt_Some.
Qed.

Lemma get_or_create_channel_keeps_wf slot id k p k' :
  kernel_wf k → get_or_create_channel slot id k = Ret p k' →
  kernel_wf k' ∧ (length (heap k) ≤ length (heap k'))%nat.
Proof.
  intros Hwf H. pose proof Hwf as (_ & _ & Hslots).
  apply get_or_create_channel_inv in H as Hinv.
  destruct Hinv as (s & Hs & _).
  destruct (Hslots slot s Hs) as (cs & Hcs & Hnd & Hcount & Hmax).
  destruct (decide (id ∈ chan_ids cs)) as [Hin|Hnot].
  { destruct (get_or_create_channel_existing k slot s cs Hs Hcs id Hin)
      as (a & c & H' & _). rewrite H' in H. by inversion H; subst. }
  destruct (decide (MAX_CHANNELS ≤ channel_count s)) as [Hfull|Hlt].
  { rewrite (get_or_create_channel_full k slot s cs Hs Hcs id Hnot Hfull) in H.
    inversion H; subst. split; [by eapply kernel_wf_ext|done]. }
  destruct (allocator k) as [|[|junk] rest] eqn:Halloc.
  - destruct (get_or_create_channel_nomem k slot s cs Hs Hcs id Hnot)
      as (k1 & H' & Hh); [lia|by left|].
    rewrite H' in H. inversion H; subst.
    apply get_or_create_channel_inv in H'
      as (s' & Hs' & [(? & ? & ? & _)|[(_ & _ & ->)|[(_ & _ & _ & ->)|
                      (? & ? & ? & _)]]]); try done;
      (split; [by eapply kernel_wf_ext|done]).
  - destruct (get_or_create_channel_nomem k slot s cs Hs Hcs id Hnot)
      as (k1 & H' & Hh); [lia|eauto|].
    rewrite H' in H. inversion H; subst.
    apply get_or_create_channel_inv in H'
      as (s' & Hs' & [(? & ? & ? & _)|[(_ & _ & ->)|[(_ & _ & _ & ->)|
                      (? & ? & ? & _)]]]); try done;
      (split; [by eapply kernel_wf_ext|done]).
  - rewrite (get_or_create_channel_new k slot s cs Hs Hcs id junk rest)
      in H by (done || lia).
    inversion H; subst. split; [by apply (created_wf k slot s id junk rest cs); try lia|].
    simpl. rewrite length_insert, length_app. lia.
Qed.

(** The file after an ioctl: as before, or pointing to a channel. *)
Lemma device_ioctl_file f ioctl_num ioctl_param k r f' k' :
  device_ioctl f ioctl_num ioctl_param k = Ret (r, f') k' →
  f' = f ∨ ∃ a c, private_data f' = Some a ∧ heap k' !! a = Some (OChannel c).
Proof.
  intros H. unfold device_ioctl in H.
  destruct (_ || _); [left; by inversion H|].
  destruct (private_data f) as [slot|]; [|left; by inversion H].
  apply bind_inv in H as (p & k1 & Hgoc & H).
  destruct p as [a|]; [|left; by inversion H]. inversion H; subst. right.
  apply get_or_create_channel_inv in Hgoc
    as (s & Hs & [(a' & c & [= <-] & -> & Hc & Hid)|[(? & _)|[(? & _)|
                  (junk & rest & [= ->] & Hlt & _ & ->)]]]); try done.
  - by exists a, c.
  - assert (slot < length (heap k))%nat by (by eapply lookup_lt_Some).
    eexists _, _. split; [done|]. simpl.
    rewrite list_lookup_insert_ne by lia.
    by rewrite lookup_app_r, Nat.sub_diag by lia.
Qed.

Lemma device_ioctl_keeps_wf f ioctl_num ioctl_param k r k' :
  kernel_wf k → device_ioctl f ioctl_num ioctl_param k = Ret r k' →
  kernel_wf k' ∧ (length (heap k) ≤ length (heap k'))%nat.
Proof.
  intros Hwf H. unfold device_ioctl in H.
  destruct (_ || _); [by inversion H; subst|].
  destruct (private_data f) as [slot|]; [|by inversion H; subst].
  apply bind_inv in H as (p & k1 & Hgoc & H).
  apply get_or_create_channel_keeps_wf in Hgoc; [|done].
  destruct p; by inversion H; subst.
Qed.

Lemma device_open_keeps_wf mnr f0 k r k' :
  kernel_wf k → device_open mnr f0 k = Ret r k' →
  kernel_wf k' ∧ (length (heap k) ≤ length (heap k'))%nat.
Proof.
  intros Hwf H. pose proof Hwf as (Hok & (ms & Hlist & Hnd) & Hslots).
  destruct (decide (mnr ∈ ms.*2)) as [Hin|Hnot].
  { destruct (device_open_found k ms Hlist mnr Hin) as (a & s & H' & _).
    rewrite H' in H. by inversion H; subst. }
  destruct (allocator k) as [|[|junk] rest] eqn:Halloc.
  - rewrite (device_open_nomem k ms Hlist mnr f0 Hnot) in H by (by left).
    inversion H; subst. split; [by eapply kernel_wf_ext|done].
  - rewrite (device_open_nomem k ms Hlist mnr f0 Hnot) in H by eauto.
    inversion H; subst. split; [by eapply kernel_wf_ext|done].
  - pose proof H as Hopen.
    rewrite (device_open_fresh k ms Hlist mnr f0 junk rest Hnot Halloc) in H.
    inversion H; subst. clear H.
    split; [|simpl; rewrite linked_length; lia]. split_and!.
    + by eapply device_open_keeps_ok.
    + exists (ms ++ [(length (heap k), mnr)]). split.
      * pose proof (slot_list_linked _ _ _ mnr Hlist) as Hl. by destruct ms.
      * rewrite fmap_app. apply NoDup_app. split_and!; [done| |].
        -- intros m Hm [->|[]%elem_of_nil]%elem_of_cons. done.
        -- apply NoDup_singleton.
    + simpl. intros b sb Hb.
      assert (Hblt : (b < S (length (heap k)))%nat).
      { apply lookup_lt_Some in Hb. by rewrite linked_length in Hb. }
      destruct (decide (b = length (heap k))) as [->|Hne].
      { rewrite (linked_new _ _ _ mnr Hlist) in Hb. simplify_eq.
        exists []. split_and!; [done|constructor|done|done]. }
      assert (Hblt' : (b < length (heap k))%nat) by lia.
      destruct (linked_lookup (heap k) ms mnr b Hblt') as [Hch Hsl].
      destruct (lookup_lt_is_Some_2 _ _ Hblt') as [[s|c] Hx].
      * destruct (Hsl s Hx) as (s' & Hs' & Hc' & Hn' & _).
        rewrite Hs' in Hb. simplify_eq.
        destruct (Hslots b s Hx) as (cs & Hcs & ? & ? & ?).
        exists cs. rewrite Hc', Hn'. split_and!; [|done..].
        eapply chan_list_frame; [exact Hcs|].
        intros a c Hin.
        pose proof (chan_list_lookup _ _ _ _ _ Hcs Hin) as Ha.
        rewrite Ha. apply linked_lookup; [by eapply lookup_lt_Some|done].
      * rewrite (Hch c Hx) in Hb. done.
Qed.

Lemma file_ok_mono k k' f :
  (length (heap k) ≤ length (heap k'))%nat → file_ok k f → file_ok k' f.
Proof.
  intros Hle (a & Hf & Ha). exists a. split; [done|].
  apply lookup_lt_is_Some. apply lookup_lt_is_Some in Ha. lia.
Qed.

Lemma do_call_keeps c fds k fds' k' :
  call_ok c →
  kernel_wf k → Forall (file_ok k) fds → do_call c fds k = Ret fds' k' →
  kernel_wf k' ∧ Forall (file_ok k') fds'.
Proof.
  intros Hcount Hwf Hfds H. destruct c as [mnr|fd num param|fd buf count|fd w count];
    simpl in H.
  - apply bind_inv in H as ([r f] & k1 & Hopen & [= <- <-]).
    destruct (device_open_keeps_wf _ _ _ _ _ Hwf Hopen) as [Hwf' Hle].
    split; [done|]. simpl.
    assert (Hold : Forall (file_ok k1) fds)
      by (eapply Forall_impl; [exact Hfds|]; intros; by eapply file_ok_mono).
    destruct (Z.eqb_spec r 0) as [->|]; [|done].
    apply Forall_app. split; [done|]. apply Forall_singleton.
    apply device_open_private_data in Hopen as (a & s & Hf & Hs & _).
    exists a. eauto.
  - destruct (fds !! fd) as [f|] eqn:Hfd; [|by inversion H; subst].
    apply bind_inv in H as ([r f'] & k1 & Hioctl & [= <- <-]).
    destruct (device_ioctl_keeps_wf _ _ _ _ _ _ Hwf Hioctl) as [Hwf' Hle].
    split; [done|]. simpl.
    assert (Hold : Forall (file_ok k1) fds)
      by (eapply Forall_impl; [exact Hfds|]; intros; by eapply file_ok_mono).
    apply Forall_insert; [done|].
    apply device_ioctl_file in Hioctl as [->|(a & c & Hf' & Ha)].
    + eapply Forall_lookup_1; eauto.
    + exists a. eauto.
  - destruct (fds !! fd) as [f|] eqn:Hfd; [|by inversion H; subst].
    apply bind_inv in H as (r & k1 & Hw & [= <- <-]).
    destruct (device_write_keeps_wf _ _ _ _ _ _ Hwf Hcount Hw)
      as [Hwf' Hle].
    split; [done|].
    eapply Forall_impl; [exact Hfds|]. intros; eapply file_ok_mono; [|done]. lia.
  - destruct (fds !! fd) as [f|] eqn:Hfd; [|by inversion H; subst].
    apply bind_inv in H as (r & k1 & Hr & [= <- <-]).
    apply device_read_pure in Hr as ->. done.
Qed.

Lemma run_keeps cs :
  ∀ fds k fds' k',
    Forall call_ok cs → kernel_wf k → Forall (file_ok k) fds →
    run cs fds k = Ret fds' k' →
    kernel_wf k' ∧ Forall (file_ok k') fds'.
Proof.
  induction cs as [|c cs IH]; intros fds k fds' k' Hcs Hwf Hfds H; simpl in H.
  { by inversion H; subst. }
  apply Forall_cons in Hcs as [Hc Hcs].
  apply bind_inv in H as (fds1 & k1 & Hcall & H).
  destruct (do_call_keeps _ _ _ _ _ Hc Hwf Hfds Hcall) as [Hwf1 Hfds1].
  by eapply IH.
Qed.

Lemma boot_wf alloc : kernel_wf (boot alloc).
Proof.
  split_and!; [apply boot_ok|exists []; split; [done|constructor]|].
  intros a s Ha. by apply lookup_nil_Some in Ha || done.
Qed.

Lemma demo_calls_run :
  run demo_calls [] (boot (plenty 2)) = Ret [demo_file] (demo_kernel hello).
Proof. vm_compute. reflexivity. Qed.

Lemma demo_calls_ok : Forall call_ok demo_calls.
Proof. repeat constructor. simpl. lia. Qed.

Lemma demo_wf : kernel_wf (demo_kernel hello).
Proof.
  eapply (run_keeps demo_calls [] (boot (plenty 2)));
    [apply demo_calls_ok|apply boot_wf|constructor|apply demo_calls_run].
Qed.

(** ** Return values of device_write *)

(** X3. The return values of [device_write], [count] being a [size_t]:
    [-EINVAL] exactly when [private_data] is NULL; otherwise [-EMSGSIZE]
    exactly when [count] is 0 or above 128; otherwise [-1] exactly when
    fewer than [count] bytes of the user buffer can be read; otherwise
    [count] itself. The result is never 0, and a call refused with
    [-EINVAL] or [-EMSGSIZE] leaves the kernel state as it was. *)
Theorem device_write_returns f buf count k r k' :
  0 ≤ count → device_write f buf count k = Ret r k' →
  (r = - EINVAL ↔ private_data f = NULL) ∧
  (r = - EMSGSIZE ↔ private_data f ≠ NULL ∧ (count = 0 ∨ 128 < count)) ∧
  (r = -1 ↔ private_data f ≠ NULL ∧ 1 ≤ count ≤ 128 ∧
            (length buf < Z.to_nat count)%nat) ∧
  (0 ≤ r → r = count ∧ 1 ≤ count ≤ 128 ∧ (Z.to_nat count ≤ length buf)%nat) ∧
  r ≠ 0 ∧
  (r = - EINVAL ∨ r = - EMSGSIZE → k' = k).
Proof.
  intros Hpos H. unfold EINVAL, EMSGSIZE, NULL.
  destruct (device_write_inv _ _ _ _ _ _ Hpos H)
    as [(-> & Hf & ->)|[(-> & Hc & ->)|(a & c & Hf & _ & ? & ? & Hcase)]].
  - unfold EINVAL, NULL in *. rewrite Hf.
    intuition (try congruence; try lia).
  - unfold EMSGSIZE in *.
    assert (private_data f ≠ None).
    { intros Hf. unfold device_write in H. rewrite Hf in H. by inversion H. }
    intuition (try congruence; try lia).
  - rewrite Hf. destruct Hcase as [(-> & ? & _)|(-> & ? & ? & _)];
      intuition (try congruence; try lia).
Qed.

(** A write of 3 bytes from a user buffer that cannot be read. *)
Lemma device_write_returns_witness :
  (-1 = - EINVAL ↔ private_data demo_file = NULL) ∧
  (-1 = - EMSGSIZE ↔ private_data demo_file ≠ NULL ∧ (3 = 0 ∨ 128 < 3)) ∧
  (-1 = -1 ↔ private_data demo_file ≠ NULL ∧ 1 ≤ 3 ≤ 128 ∧
             (length (@nil byte) < Z.to_nat 3)%nat) ∧
  (0 ≤ -1 → -1 = 3 ∧ 1 ≤ 3 ≤ 128 ∧ (Z.to_nat 3 ≤ length (@nil byte))%nat) ∧
  -1 ≠ 0 ∧
  (-1 = - EINVAL ∨ -1 = - EMSGSIZE → clobbered = demo_kernel hello).
Proof.
  apply (device_write_returns demo_file [] 3 (demo_kernel hello) (-1) clobbered);
    [lia|vm_compute; reflexivity].
Defined.

(** ** Calls always return on a well-formed state *)

Lemma get_or_create_channel_total k slot s id :
  kernel_wf k → heap k !! slot = Some (OSlot s) →
  ∃ p k', get_or_create_channel slot id k = Ret p k'.
Proof.
  intros (_ & _ & Hslots) Hs.
  destruct (Hslots slot s Hs) as (cs & Hcs & Hnd & Hcount & Hmax).
  destruct (decide (id ∈ chan_ids cs)) as [Hin|Hnot].
  { destruct (get_or_create_channel_existing k slot s cs Hs Hcs id Hin)
      as (a & c & H' & _). eauto. }
  destruct (decide (MAX_CHANNELS ≤ channel_count s)) as [Hfull|Hlt].
  { rewrite (get_or_create_channel_full k slot s cs Hs Hcs id Hnot Hfull).
    eauto. }
  destruct (allocator k) as [|[|junk] rest] eqn:Halloc.
  - destruct (get_or_create_channel_nomem k slot s cs Hs Hcs id Hnot)
      as (k1 & H' & _); [lia|by left|eauto].
  - destruct (get_or_create_channel_nomem k slot s cs Hs Hcs id Hnot)
      as (k1 & H' & _); [lia|eauto|eauto].
  - rewrite (get_or_create_channel_new k slot s cs Hs Hcs id junk rest)
      by (done || lia). eauto.
Qed.

(** X12. On a well-formed kernel state no call of the driver runs into a
    walk that does not end or into a pointer of the wrong type, as long as
    the session follows the protocol: [device_open] always returns, with 0
    or [-ENOMEM]; [device_ioctl] on a file that points to its slot always
    returns, with 0 or [-EINVAL]; [device_write] and [device_read] on a
    file that points to a channel always return. *)
Theorem protocol_calls_return k :
  kernel_wf k →
  (∀ mnr f0, ∃ r f k',
     device_open mnr f0 k = Ret (r, f) k' ∧ (r = 0 ∨ r = - ENOMEM)) ∧
  (∀ f a s num param,
     private_data f = Some a → heap k !! a = Some (OSlot s) →
     ∃ r f' k', device_ioctl f num param k = Ret (r, f') k' ∧
                (r = 0 ∨ r = - EINVAL)) ∧
  (∀ f a c buf count,
     private_data f = Some a → heap k !! a = Some (OChannel c) →
     ∃ r k', device_write f buf count k = Ret r k') ∧
  (∀ f a c writable count,
     private_data f = Some a → heap k !! a = Some (OChannel c) →
     ∃ r k', device_read f writable count k = Ret r k').
Proof.
  intros Hwf. pose proof Hwf as (Hok & (ms & Hlist & Hnd) & Hslots).
  split_and!.
  - intros mnr f0. destruct (decide (mnr ∈ ms.*2)) as [Hin|Hnot].
    { destruct (device_open_found k ms Hlist mnr Hin) as (a & s & H & _).
      rewrite H. eauto 10. }
    destruct (allocator k) as [|[|junk] rest] eqn:Halloc.
    + rewrite (device_open_nomem k ms Hlist mnr f0 Hnot) by (by left).
      eauto 10.
    + rewrite (device_open_nomem k ms Hlist mnr f0 Hnot) by eauto.
      eauto 10.
    + rewrite (device_open_fresh k ms Hlist mnr f0 junk rest Hnot Halloc).
      eauto 10.
  - intros f a s num param Hf Ha. unfold device_ioctl. rewrite Hf.
    destruct (_ || _); [eauto 10|].
    destruct (get_or_create_channel_total k a s (to_uint param) Hwf Ha)
      as ([c|] & k' & H); erewrite bind_Ret by exact H; eauto 10.
  - intros f a c buf count Hf Ha. unfold device_write. rewrite Hf.
    destruct (_ || _); [eauto|].
    erewrite bind_Ret by (unfold load_channel; by rewrite Ha).
    destruct (copy_from_user _ _ _) as [msg rest].
    destruct (negb _); eauto.
  - intros f a c writable count Hf Ha. unfold device_read. rewrite Hf.
    erewrite bind_Ret by (unfold load_channel; by rewrite Ha).
    destruct (_ =? _); [eauto|]. destruct (_ <? _); [eauto|].
    destruct (copy_to_user _ _ _) as [out rest].
    destruct (negb _); eauto.
Qed.

(** The state after open, select and write. *)
Lemma protocol_calls_return_witness :
  (∀ mnr f0, ∃ r f k',
     device_open mnr f0 (demo_kernel hello) = Ret (r, f) k' ∧
     (r = 0 ∨ r = - ENOMEM)) ∧
  (∀ f a s num param,
     private_data f = Some a → heap (demo_kernel hello) !! a = Some (OSlot s) →
     ∃ r f' k', device_ioctl f num param (demo_kernel hello) = Ret (r, f') k' ∧
                (r = 0 ∨ r = - EINVAL)) ∧
  (∀ f a c buf count,
     private_data f = Some a →
     heap (demo_kernel hello) !! a = Some (OChannel c) →
     ∃ r k', device_write f buf count (demo_kernel hello) = Ret r k') ∧
  (∀ f a c writable count,
     private_data f = Some a →
     heap (demo_kernel hello) !! a = Some (OChannel c) →
     ∃ r k', device_read f writable count (demo_kernel hello) = Ret r k').
Proof. apply (protocol_calls_return (demo_kernel hello)), demo_wf. Defined.

(** ** Sessions and channels *)

Lemma two_channels_reached :
  run (demo_calls ++ [Open 0; Ioctl 1 MSG_SLOT_CHANNEL 8]) []
      (boot (plenty 3)) = Ret [demo_file; other_file] two_channels.
Proof. vm_compute. reflexivity. Qed.

Lemma one_slot_wf n : kernel_wf (one_slot n).
Proof.
  split_and!.
  - intros [|a] c Ha; simpl in Ha; simplify_eq.
  - exists [(0%nat, 0)]. split; [apply one_slot_list|].
    apply NoDup_singleton.
  - intros [|a] s Ha; simpl in Ha; simplify_eq.
    exists []. split_and!; [done|constructor|done|done].
Qed.

(** X13. A channel that was just created holds no message: when
    [device_ioctl] returns 0 and has allocated (the store has grown), a
    read through the file fails with [-EWOULDBLOCK] and delivers nothing,
    whatever the capacity. *)
Theorem read_new_channel f ioctl_num ioctl_param k f' k' writable count :
  device_ioctl f ioctl_num ioctl_param k = Ret (0, f') k' →
  (length (heap k) < length (heap k'))%nat →
  device_read f' writable count k' = Ret (- EWOULDBLOCK, []) k'.
Proof.
  intros H Hgrow. unfold device_ioctl in H.
  destruct (_ || _); [by inversion H|].
  destruct (private_data f) as [slot|]; [|by inversion H].
  apply bind_inv in H as (p & k1 & Hgoc & H).
  destruct p as [a|]; [|by inversion H]. inversion H; subst. clear H.
  apply get_or_create_channel_inv in Hgoc
    as (s & Hs & [(a' & c & _ & -> & _)|[(? & _)|[(? & _)|
                  (junk & rest & [= ->] & Hlt & _ & ->)]]]); try done; [lia|].
  assert (slot < length (heap k))%nat by (by eapply lookup_lt_Some).
  apply (device_read_empty _ _ (length (heap k))
           (Channel (to_uint ioctl_param) (junk_message junk) 0 (channels s)));
    [done| |done].
  simpl. rewrite list_lookup_insert_ne by lia.
  by rewrite lookup_app_r, Nat.sub_diag by lia.
Qed.

(** Selecting channel 7 on an empty slot, then reading. *)
Lemma read_new_channel_witness :
  device_read demo_file 128 128 (demo_kernel [])
    = Ret (- EWOULDBLOCK, []) (demo_kernel []).
Proof.
  apply (read_new_channel fresh_file MSG_SLOT_CHANNEL 7 (one_slot 1));
    [vm_compute; reflexivity|simpl; lia].
Defined.

Lemma get_or_create_channel_again k slot id a k1 :
  kernel_wf k → get_or_create_channel slot id k = Ret (Some a) k1 →
  get_or_create_channel slot id k1 = Ret (Some a) k1.
Proof.
  intros Hwf H. pose proof Hwf as (_ & _ & Hslots).
  apply get_or_create_channel_inv in H as Hinv.
  destruct Hinv as (s & Hs & _).
  destruct (Hslots slot s Hs) as (cs & Hcs & Hnd & Hcount & Hmax).
  destruct (decide (id ∈ chan_ids cs)) as [Hin|Hnot].
  { destruct (get_or_create_channel_existing k slot s cs Hs Hcs id Hin)
      as (a' & c & H' & _). rewrite H' in H. inversion H; subst. done. }
  destruct (decide (MAX_CHANNELS ≤ channel_count s)) as [Hfull|Hlt].
  { rewrite (get_or_create_channel_full k slot s cs Hs Hcs id Hnot Hfull) in H.
    by inversion H. }
  destruct (allocator k) as [|[|junk] rest] eqn:Halloc.
  - destruct (get_or_create_channel_nomem k slot s cs Hs Hcs id Hnot)
      as (k2 & H' & _); [lia|by left|]. rewrite H' in H. by inversion H.
  - destruct (get_or_create_channel_nomem k slot s cs Hs Hcs id Hnot)
      as (k2 & H' & _); [lia|eauto|]. rewrite H' in H. by inversion H.
  - rewrite (get_or_create_channel_new k slot s cs Hs Hcs id junk rest)
      in H by (done || lia).
    inversion H; subst. clear H.
    pose proof (created_slot k slot s Hs id junk rest) as Hslot'.
    pose proof (created_list k slot s cs Hs Hcs id junk rest) as Hlist'.
    destruct (get_or_create_channel_existing _ slot _ _ Hslot' Hlist' id)
      as (a' & c' & H' & Hin' & _ & Hid').
    { unfold chan_ids. rewrite fmap_cons. by left. }
    apply elem_of_cons in Hin' as [[= -> ->]|Hin']; [done|].
    exfalso. apply Hnot. rewrite <-Hid'.
    by apply (list_elem_of_fmap_2 (λ ac, channel_id ac.2) _ (a', c')).
Qed.

(** X14. No duplicate channels: when a session has selected an id with
    success, any session still pointing to the same slot that selects the
    same id gets the same channel pointer, and nothing is allocated or
    changed by this second selection. *)
Theorem select_same_channel k f1 f2 slot ioctl_param f1' k1 :
  kernel_wf k → private_data f1 = Some slot → private_data f2 = Some slot →
  device_ioctl f1 MSG_SLOT_CHANNEL ioctl_param k = Ret (0, f1') k1 →
  device_ioctl f2 MSG_SLOT_CHANNEL ioctl_param k1 = Ret (0, f1') k1.
Proof.
  intros Hwf Hf1 Hf2 H. unfold device_ioctl in *. rewrite Hf1 in H. rewrite Hf2.
  destruct (_ || _); [by inversion H|].
  apply bind_inv in H as (p & k2 & Hgoc & H).
  destruct p as [a|]; [|by inversion H]. inversion H; subst. clear H.
  erewrite bind_Ret; [|by eapply get_or_create_channel_again]. done.
Qed.

(** Two fresh sessions of minor 0 select channel 7 one after the other. *)
Lemma select_same_channel_witness :
  device_ioctl fresh_file MSG_SLOT_CHANNEL 7 (demo_kernel [])
    = Ret (0, demo_file) (demo_kernel []).
Proof.
  apply (select_same_channel (one_slot 1) fresh_file fresh_file 0 7);
    [apply one_slot_wf|reflexivity|reflexivity|vm_compute; reflexivity].
Defined.

Lemma device_read_local g b writable count k k' x :
  private_data g = Some b → heap k' !! b = heap k !! b →
  device_read g writable count k = Ret x k →
  device_read g writable count k' = Ret x k'.
Proof.
  intros Hg Hb H. unfold device_read in *. rewrite Hg in *.
  unfold mbind, M_bind, bind, load_channel in *. rewrite Hb.
  destruct (heap k !! b) as [[|c]|]; try done.
  destruct (_ =? _); [by inversion H|]. destruct (_ <? _); [by inversion H|].
  destruct (copy_to_user _ _ _) as [out rest].
  destruct (negb _); by inversion H.
Qed.

(** X15. Writing to one channel does not affect what is read from
    another: after any write through a file bound to the channel at [a],
    a read through a file bound to a channel at another address returns
    what it returned before. *)
Theorem write_leaves_other_channels f g a b buf count k r k' writable cnt x :
  private_data f = Some a → private_data g = Some b → a ≠ b → 0 ≤ count →
  device_write f buf count k = Ret r k' →
  device_read g writable cnt k = Ret x k →
  device_read g writable cnt k' = Ret x k'.
Proof.
  intros Hf Hg Hne Hpos Hw Hr.
  eapply device_read_local; [done| |done].
  destruct (device_write_inv _ _ _ _ _ _ Hpos Hw)
    as [(_ & _ & ->)|[(_ & _ & ->)|(a' & c & Hf' & _ & _ & _ & Hcase)]];
    [done..|].
  assert (a' = a) as -> by congruence.
  destruct Hcase as [(_ & _ & ->)|(_ & _ & _ & ->)]; simpl;
    by rewrite list_lookup_insert_ne.
Qed.

(** "hello" is still read from channel 7 after 3 bytes of it were written
    to channel 8. *)
Lemma write_leaves_other_channels_witness :
  device_read demo_file 128 128
    (set_heap (<[2%nat := OChannel (written (Channel 8 (replicate 128 zero) 0
                                               (Some 1%nat)) hello 3 3)]>
                 (heap two_channels)) two_channels)
  = Ret (5, hello)
      (set_heap (<[2%nat := OChannel (written (Channel 8 (replicate 128 zero) 0
                                                 (Some 1%nat)) hello 3 3)]>
                   (heap two_channels)) two_channels).
Proof.
  apply (write_leaves_other_channels other_file demo_file 2 1 hello 3
           two_channels 3);
    [reflexivity|reflexivity|lia|lia|vm_compute; reflexivity|
     vm_compute; reflexivity].
Defined.

(** ** Open and select-channel never touch an existing channel *)

Lemma channels_kept_refl h : channels_kept h h.
Proof. by intros a c. Qed.

Lemma channels_kept_trans h1 h2 h3 :
  channels_kept h1 h2 → channels_kept h2 h3 → channels_kept h1 h3.
Proof. intros H12 H23 a c Ha. by apply H23, H12. Qed.

Lemma created_keeps_channels k slot s id junk rest :
  heap k !! slot = Some (OSlot s) →
  channels_kept (heap k) (heap (created k slot s id junk rest)).
Proof.
  intros Hs a c Ha. simpl.
  rewrite list_lookup_insert_ne by congruence. by apply lookup_app_l_Some.
Qed.

Lemma get_or_create_channel_keeps_channels slot id k p k' :
  get_or_create_channel slot id k = Ret p k' →
  channels_kept (heap k) (heap k').
Proof.
  intros (s & Hs & [(a & c & _ & -> & _)|[(_ & _ & ->)|[(_ & _ & _ & ->)|
            (junk & rest & _ & _ & _ & ->)]]])%get_or_create_channel_inv;
    try apply channels_kept_refl.
  by apply created_keeps_channels.
Qed.

Lemma device_ioctl_keeps_channels f ioctl_num ioctl_param k r k' :
  device_ioctl f ioctl_num ioctl_param k = Ret r k' →
  channels_kept (heap k) (heap k').
Proof.
  intros H. unfold device_ioctl in H.
  destruct (_ || _); [inversion H; apply channels_kept_refl|].
  destruct (private_data f) as [slot|];
    [|inversion H; apply channels_kept_refl].
  apply bind_inv in H as (p & k1 & Hgoc & H).
  apply get_or_create_channel_keeps_channels in Hgoc.
  destruct p; by inversion H; subst.
Qed.

Lemma device_open_keeps_channels mnr f0 k r k' :
  kernel_wf k → device_open mnr f0 k = Ret r k' →
  channels_kept (heap k) (heap k').
Proof.
  intros (_ & (ms & Hlist & _) & _) H.
  destruct (decide (mnr ∈ ms.*2)) as [Hin|Hnot].
  { destruct (device_open_found k ms Hlist mnr Hin) as (a & s & H' & _).
    rewrite H' in H. inversion H; subst. apply channels_kept_refl. }
  destruct (allocator k) as [|[|junk] rest] eqn:Halloc.
  - rewrite (device_open_nomem k ms Hlist mnr f0 Hnot) in H by (by left).
    inversion H; subst. apply channels_kept_refl.
  - rewrite (device_open_nomem k ms Hlist mnr f0 Hnot) in H by eauto.
    inversion H; subst. apply channels_kept_refl.
  - rewrite (device_open_fresh k ms Hlist mnr f0 junk rest Hnot Halloc) in H.
    inversion H; subst. intros a c Ha. simpl.
    apply linked_lookup; [by eapply lookup_lt_Some|done].
Qed.

(** X16. Neither [device_open] nor a select-channel that follows the
    protocol modifies a channel that exists: on a well-formed kernel state,
    whatever [device_open] returns, and whatever [device_ioctl] returns on
    a file that points to its slot, every channel of the store is still
    there with the same id, message bytes, length and link. *)
Theorem open_and_select_keep_channels k :
  kernel_wf k →
  (∀ mnr f0 r k', device_open mnr f0 k = Ret r k' →
     channels_kept (heap k) (heap k')) ∧
  (∀ f a s num param r k',
     private_data f = Some a → heap k !! a = Some (OSlot s) →
     device_ioctl f num param k = Ret r k' →
     channels_kept (heap k) (heap k')).
Proof.
  intros Hwf. split.
  - intros mnr f0 r k'. by apply device_open_keeps_channels.
  - intros f a s num param r k' _ _. apply device_ioctl_keeps_channels.
Qed.

(** On the state that holds "hello" in channel 7. *)
Lemma open_and_select_keep_channels_witness :
  (∀ mnr f0 r k', device_open mnr f0 (demo_kernel hello) = Ret r k' →
     channels_kept (heap (demo_kernel hello)) (heap k')) ∧
  (∀ f a s num param r k',
     private_data f = Some a → heap (demo_kernel hello) !! a = Some (OSlot s) →
     device_ioctl f num param (demo_kernel hello) = Ret r k' →
     channels_kept (heap (demo_kernel hello)) (heap k')).
Proof. apply (open_and_select_keep_channels (demo_kernel hello)), demo_wf. Defined.

(** ** The client programs on the driver *)

Lemma slot_list_unique (ms : list (nat * Z)) a1 a2 m :
  NoDup ms.*2 → (a1, m) ∈ ms → (a2, m) ∈ ms → a1 = a2.
Proof.
  induction ms as [|[a m'] ms IH]; [by intros _ ?%elem_of_nil|].
  rewrite fmap_cons. intros [Hnot Hnd]%NoDup_cons.
  intros [H1|H1]%elem_of_cons [H2|H2]%elem_of_cons.
  - congruence.
  - exfalso. apply Hnot. simplify_eq.
    by apply (list_elem_of_fmap_2 snd _ (a2, m')).
  - exfalso. apply Hnot. simplify_eq.
    by apply (list_elem_of_fmap_2 snd _ (a1, m')).
  - by apply IH.
Qed.

(** After a successful open the file points to the slot that the list has
    for the minor number. *)
Lemma device_open_registered mnr f0 k f ka :
  kernel_wf k → device_open mnr f0 k = Ret (0, f) ka →
  ∃ sa ms, f = File (Some sa) ∧ slot_list (heap ka) (slots ka) ms ∧
           NoDup ms.*2 ∧ (sa, mnr) ∈ ms.
Proof.
  intros (_ & (ms & Hlist & Hnd) & _) H.
  destruct (decide (mnr ∈ ms.*2)) as [Hin|Hnot].
  { destruct (device_open_found k ms Hlist mnr Hin) as (a & s & H' & Ha & _).
    rewrite H' in H. inversion H; subst. by exists a, ms. }
  destruct (allocator k) as [|[|junk] rest] eqn:Halloc.
  - rewrite (device_open_nomem k ms Hlist mnr f0 Hnot) in H by (by left).
    by inversion H.
  - rewrite (device_open_nomem k ms Hlist mnr f0 Hnot) in H by eauto.
    by inversion H.
  - rewrite (device_open_fresh k ms Hlist mnr f0 junk rest Hnot Halloc) in H.
    inversion H; subst.
    exists (length (heap k)), (ms ++ [(length (heap k), mnr)]). split_and!.
    + done.
    + pose proof (slot_list_linked _ _ _ mnr Hlist) as Hl. by destruct ms.
    + rewrite fmap_app. apply NoDup_app. split_and!; [done| |].
      * intros m Hm [->|[]%elem_of_nil]%elem_of_cons. done.
      * apply NoDup_singleton.
    + apply elem_of_app. right. by left.
Qed.

Lemma get_or_create_channel_keeps_slot_list slot id k p k' ms :
  slot_list (heap k) (slots k) ms →
  get_or_create_channel slot id k = Ret p k' →
  slot_list (heap k') (slots k') ms.
Proof.
  intros Hlist
    (s & Hs & [(a & c & _ & -> & _)|[(_ & _ & ->)|[(_ & _ & _ & ->)|
       (junk & rest & _ & _ & _ & ->)]]])%get_or_create_channel_inv;
    try done.
  simpl. eapply slot_list_frame; [exact Hlist|].
  intros b m sb _ Hb. destruct (decide (b = slot)) as [->|Hne].
  - simplify_eq. eexists. split.
    + apply list_lookup_insert_eq. rewrite length_app.
      apply lookup_lt_Some in Hs. lia.
    + done.
  - exists sb. split; [|done].
    rewrite list_lookup_insert_ne by done. by apply lookup_app_l_Some.
Qed.

Lemma find_channel_insert fuel h p id a c0 c' :
  h !! a = Some (OChannel c0) →
  channel_id c' = channel_id c0 → next c' = next c0 →
  find_channel fuel (<[a := OChannel c']> h) p id = find_channel fuel h p id.
Proof.
  intros Ha Hid Hnext. revert p.
  assert (Halt : (a < length h)%nat) by (by eapply lookup_lt_Some).
  induction fuel as [|fuel IH]; intros [b|]; simpl; try done.
  destruct (decide (b = a)) as [->|Hne].
  - rewrite list_lookup_insert_eq, Ha, Hid, Hnext by done.
    destruct (_ =? _); [done|apply IH].
  - rewrite list_lookup_insert_ne by done.
    destruct (h !! b) as [[|c]|]; try done.
    destruct (_ =? _); [done|apply IH].
Qed.

(** A lookup that found a channel finds it again after a write to any
    channel. *)
Lemma get_or_create_channel_after_write slot id k a b c0 c' :
  get_or_create_channel slot id k = Ret (Some a) k →
  heap k !! b = Some (OChannel c0) →
  channel_id c' = channel_id c0 → next c' = next c0 →
  get_or_create_channel slot id (set_heap (<[b := OChannel c']> (heap k)) k)
    = Ret (Some a) (set_heap (<[b := OChannel c']> (heap k)) k).
Proof.
  intros H Hb Hid Hnext. unfold get_or_create_channel in *.
  apply bind_inv in H as (s & k1 & Hload & H). unfold load_slot in Hload.
  destruct (heap k !! slot) as [[s0|]|] eqn:Hs; simplify_eq.
  erewrite bind_Ret; last first.
  { unfold load_slot. simpl.
    rewrite list_lookup_insert_ne by (intros ->; congruence). by rewrite Hs. }
  apply bind_inv in H as (h & k2 & [= <- <-] & H).
  erewrite bind_Ret by reflexivity. cbn [heap set_heap].
  rewrite length_insert, (find_channel_insert _ _ _ _ _ c0) by done.
  destruct (find_channel _ _ _ _) as [a0|link| |]; try done.
  { by inversion H; subst. }
  exfalso. destruct (_ <=? _).
  { apply bind_inv in H as ([] & k2 & _ & H). by inversion H. }
  apply bind_inv in H as (new & k2 & Halloc & H). unfold kmalloc in Halloc.
  destruct (allocator k1) as [|[|junk] rest]; simplify_eq;
    apply bind_inv in H as ([] & k3 & Hstep & H); try (by inversion H).
  injection Hstep as <-. injection H as Ha Hk.
  apply (f_equal heap), (f_equal length) in Hk. simpl in Hk.
  rewrite length_insert, length_app in Hk. simpl in Hk. lia.
Qed.

Lemma to_int_small n : 0 ≤ n ≤ 128 → to_int n = n.
Proof.
  intros Hn. unfold to_int. rewrite Z.mod_small by lia.
  destruct (Z.ltb_spec n (2 ^ 31)); lia.
Qed.

(** What a successful run of the sender has done. *)
Lemma sender_main_success env p1 path chan msg k k1 :
  sender_main env [p1; path; chan; msg] k = Ret (Exit EXIT_SUCCESS [] []) k1 →
  ∃ id mnr sa a ka kb,
    strtoul env chan = (id, false) ∧ devnode env path = Some mnr ∧
    device_open mnr (File NULL) k = Ret (0, File (Some sa)) ka ∧
    id ≠ 0 ∧
    get_or_create_channel sa (to_uint id) ka = Ret (Some a) kb ∧
    device_write (File (Some a)) (msg ++ [x00]) (strlen msg) kb
      = Ret (strlen msg) k1 ∧
    1 ≤ strlen msg ≤ 128.
Proof.
  intros Hs. unfold sender_main in Hs.
  destruct (strtoul env chan) as [id er] eqn:Hconv.
  destruct er; [by inversion Hs|].
  apply bind_inv in Hs as (fd & ka & Hopen & Hs). unfold sys_open in Hopen.
  destruct (devnode env path) as [mnr|] eqn:Hdev;
    [|inversion Hopen; subst; by inversion Hs].
  apply bind_inv in Hopen as ([r f] & ka' & Hdo & Hret). simpl in Hret.
  destruct (Z.eqb_spec r 0); inversion Hret; subst; [|by inversion Hs].
  clear Hret.
  apply bind_inv in Hs as ([r2 f'] & kb & Hio & Hs). simpl in Hs.
  destruct (Z.eqb_spec r2 0); [|by inversion Hs]. subst. simpl in Hs.
  apply bind_inv in Hs as (w & k1' & Hw & Hs).
  destruct (Z.ltb_spec w 0); inversion Hs; subst. clear Hs.
  apply device_open_private_data in Hdo as Hpd.
  destruct Hpd as (sa & s & Hf & _). destruct f as [pf]. simpl in Hf. subst pf.
  unfold device_ioctl in Hio. rewrite Z.eqb_refl in Hio. simpl in Hio.
  destruct (Z.eqb_spec id 0); [by inversion Hio|].
  apply bind_inv in Hio as (p & kb' & Hgoc & Hio).
  destruct p as [a|]; inversion Hio; subst. clear Hio.
  apply device_write_success_inv in Hw as Hinv; [|done].
  destruct Hinv as (a' & c & [= <-] & Hc & Hlen & Hbuf).
  rewrite (device_write_ok kb (File (Some a)) a c eq_refl Hc _ _ Hlen Hbuf)
    in Hw.
  inversion Hw; subst.
  exists id, mnr, sa, a, ka, kb. split_and!; try done; try lia.
  by apply (device_write_ok kb (File (Some a)) a c).
Qed.



Lemma device_open_total k mnr f0 :
  kernel_wf k → ∃ r f k', device_open mnr f0 k = Ret (r, f) k'.
Proof.
  intros (_ & (ms & Hlist & _) & _).
  destruct (decide (mnr ∈ ms.*2)) as [Hin|Hnot].
  { destruct (device_open_found k ms Hlist mnr Hin) as (a & s & H & _).
    rewrite H. eauto. }
  destruct (allocator k) as [|[|junk] rest] eqn:Halloc.
  - rewrite (device_open_nomem k ms Hlist mnr f0 Hnot) by (by left). eauto.
  - rewrite (device_open_nomem k ms Hlist mnr f0 Hnot) by eauto. eauto.
  - rewrite (device_open_fresh k ms Hlist mnr f0 junk rest Hnot Halloc). eauto.
Qed.

Lemma sys_open_total env path k :
  kernel_wf k →
  ∃ fd k', sys_open env path k = Ret fd k' ∧ kernel_wf k' ∧
           channels_kept (heap k) (heap k') ∧
           (∀ f, fd = Some f →
              ∃ a s, private_data f = Some a ∧ heap k' !! a = Some (OSlot s)).
Proof.
  intros Hwf. unfold sys_open. destruct (devnode env path) as [mnr|].
  - destruct (device_open_total k mnr (File NULL) Hwf) as (r & f & k' & H).
    erewrite bind_Ret by exact H. simpl. eexists _, k'. split; [done|].
    split_and!.
    + by eapply device_open_keeps_wf.
    + by eapply device_open_keeps_channels.
    + intros f' Hf'. destruct (Z.eqb_spec r 0) as [->|]; [|done].
      simplify_eq. apply device_open_private_data in H as (a & s & ? & ? & _).
      eauto.
  - exists None, k. split_and!; [done|done|apply channels_kept_refl|done].
Qed.

Lemma device_ioctl_total k f a s num param :
  kernel_wf k → private_data f = Some a → heap k !! a = Some (OSlot s) →
  ∃ r f' k', device_ioctl f num param k = Ret (r, f') k' ∧ kernel_wf k' ∧
             channels_kept (heap k) (heap k') ∧
             (r = 0 → ∃ b c, private_data f' = Some b ∧
                             heap k' !! b = Some (OChannel c)).
Proof.
  intros Hwf Hf Ha.
  assert (∃ r f' k', device_ioctl f num param k = Ret (r, f') k')
    as (r & f' & k' & H).
  { unfold device_ioctl. rewrite Hf. destruct (_ || _); [eauto|].
    destruct (get_or_create_channel_total k a s (to_uint param) Hwf Ha)
      as ([c|] & k' & H); erewrite bind_Ret by exact H; eauto. }
  exists r, f', k'. split_and!; [done| | |].
  - by eapply device_ioctl_keeps_wf.
  - by eapply device_ioctl_keeps_channels.
  - intros ->. apply device_ioctl_file in H as Hfile.
    destruct Hfile as [->|?]; [|done].
    unfold device_ioctl in H. rewrite Hf in H.
    destruct (_ || _); [by inversion H|].
    apply bind_inv in H as (p & k1 & Hgoc & H).
    destruct p as [b|]; [|by inversion H]. inversion H as [[Hb Hk]].
    destruct f as [pf]. simpl in *. simplify_eq.
    apply get_or_create_channel_inv in Hgoc
      as (s' & Hs' & [(a' & c & [= <-] & -> & Hc & _)|[(? & _)|[(? & _)|
                      (junk & rest & [= ->] & _ & _ & ->)]]]); try done.
    + congruence.
    + apply lookup_lt_Some in Ha. lia.
Qed.

(** X2. On a well-formed kernel state and a file that points to its slot,
    whenever [device_ioctl] returns 0, the command was [MSG_SLOT_CHANNEL]
    with a non-zero parameter, and the file now points to a channel whose id
    is the parameter truncated to 32 bits. Either that channel existed and
    the kernel state is unchanged, or it is a channel allocated by this
    call, with message length 0, and the slot had fewer than [2^20]
    channels. *)
Theorem device_ioctl_success f slot s ioctl_num ioctl_param k f' k' :
  kernel_wf k →
  private_data f = Some slot → heap k !! slot = Some (OSlot s) →
  device_ioctl f ioctl_num ioctl_param k = Ret (0, f') k' →
  ioctl_num = MSG_SLOT_CHANNEL ∧ ioctl_param ≠ 0 ∧
  ∃ a c,
    private_data f' = Some a ∧ heap k' !! a = Some (OChannel c) ∧
    channel_id c = to_uint ioctl_param ∧
    ((k' = k ∧ heap k !! a = Some (OChannel c)) ∨
     (a = length (heap k) ∧ message_len c = 0 ∧
      channel_count s < MAX_CHANNELS ∧
      length (heap k') = S (length (heap k)))).
Proof.
  intros _ Hf Hs H. unfold device_ioctl in H.
  destruct (Z.eqb_spec ioctl_num MSG_SLOT_CHANNEL); [|by inversion H].
  destruct (Z.eqb_spec ioctl_param 0); [by inversion H|]. simpl in H.
  rewrite Hf in H.
  apply bind_inv in H as (p & k1 & Hgoc & H).
  destruct p as [a|]; [|by inversion H]. inversion H; subst. clear H.
  split; [done|]. split; [done|].
  apply get_or_create_channel_inv in Hgoc
    as (s' & Hs' & [(a' & c & [= <-] & -> & Hc & Hid)|[(? & _)|[(? & _)|
                    (junk & rest & [= ->] & Hlt & _ & ->)]]]); try done.
  - exists a, c. split_and!; try done. by left.
  - assert (s' = s) as -> by congruence.
    exists (length (heap k)),
      (Channel (to_uint ioctl_param) (junk_message junk) 0 (channels s)).
    assert (slot < length (heap k))%nat by (by eapply lookup_lt_Some).
    split_and!; try done.
    + simpl. rewrite list_lookup_insert_ne by lia.
      by rewrite lookup_app_r, Nat.sub_diag by lia.
    + right. split_and!; try done. simpl.
      rewrite length_insert, length_app. simpl. lia.
Qed.

(** Selecting channel 7 on a fresh session of an empty slot. *)
Lemma device_ioctl_success_witness :
  MSG_SLOT_CHANNEL = MSG_SLOT_CHANNEL ∧ 7 ≠ 0 ∧
  ∃ a c,
    private_data demo_file = Some a ∧
    heap (demo_kernel []) !! a = Some (OChannel c) ∧
    channel_id c = to_uint 7 ∧
    ((demo_kernel [] = one_slot 1 ∧
      heap (one_slot 1) !! a = Some (OChannel c)) ∨
     (a = length (heap (one_slot 1)) ∧ message_len c = 0 ∧
      channel_count (Slot NULL 0 0 NULL) < MAX_CHANNELS ∧
      length (heap (demo_kernel [])) = S (length (heap (one_slot 1))))).
Proof.
  apply (device_ioctl_success fresh_file 0 (Slot NULL 0 0 NULL)
           MSG_SLOT_CHANNEL 7 (one_slot 1) demo_file (demo_kernel []));
    [apply one_slot_wf|reflexivity|reflexivity|vm_compute; reflexivity].
Defined.

(** ** Sequences of calls that follow the protocol *)

Lemma call_allowed_ok c fds k : call_allowed c fds k → call_ok c.
Proof. destruct c; simpl; [done|done|by intros [? _]|done]. Qed.

Lemma do_call_total c fds k :
  kernel_wf k → call_allowed c fds k → ∃ fds' k', do_call c fds k = Ret fds' k'.
Proof.
  intros Hwf Hc. destruct c as [mnr|fd num param|fd buf count|fd w count];
    simpl in *.
  - destruct (device_open_total k mnr (File NULL) Hwf) as (r & f & k' & H).
    erewrite bind_Ret by exact H. eauto.
  - destruct (fds !! fd) as [f|]; [|eauto].
    destruct (Hc f eq_refl) as (a & s & Hf & Ha).
    destruct (device_ioctl_total k f a s num param Hwf Hf Ha)
      as (r & f' & k' & H & _).
    erewrite bind_Ret by exact H. eauto.
  - destruct (fds !! fd) as [f|]; [|eauto].
    destruct Hc as [_ Hc]. destruct (Hc f eq_refl) as (a & c & Hf & Ha).
    assert (∃ r k', device_write f buf count k = Ret r k') as (r & k' & H).
    { unfold device_write. rewrite Hf. destruct (_ || _); [eauto|].
      erewrite bind_Ret by (unfold load_channel; by rewrite Ha).
      destruct (copy_from_user _ _ _) as [msg rest].
      destruct (negb _); eauto. }
    erewrite bind_Ret by exact H. eauto.
  - destruct (fds !! fd) as [f|]; [|eauto].
    destruct (Hc f eq_refl) as (a & c & Hf & Ha).
    assert (∃ r k', device_read f w count k = Ret r k') as (r & k' & H).
    { unfold device_read. rewrite Hf.
      erewrite bind_Ret by (unfold load_channel; by rewrite Ha).
      destruct (_ =? _); [eauto|]. destruct (_ <? _); [eauto|].
      destruct (copy_to_user _ _ _) as [out rest].
      destruct (negb _); eauto. }
    erewrite bind_Ret by exact H. eauto.
Qed.

Lemma run_protocol cs :
  ∀ fds k,
    kernel_wf k → Forall (file_ok k) fds → protocol cs fds k →
    ∃ fds' k', run cs fds k = Ret fds' k' ∧
               kernel_wf k' ∧ Forall (file_ok k') fds'.
Proof.
  induction cs as [|c cs IH]; intros fds k Hwf Hfds Hp; simpl in *.
  { by exists fds, k. }
  destruct Hp as [Hc Hp].
  destruct (do_call_total c fds k Hwf Hc) as (fds1 & k1 & Hcall).
  destruct (do_call_keeps _ _ _ _ _ (call_allowed_ok _ _ _ Hc) Hwf Hfds Hcall)
    as [Hwf1 Hfds1].
  destruct (IH fds1 k1 Hwf1 Hfds1 (Hp fds1 k1 Hcall)) as (fds' & k' & H & ?).
  exists fds', k'. split; [|done].
  by erewrite bind_Ret by exact Hcall.
Qed.

Lemma demo_calls_protocol : protocol demo_calls [] (boot (plenty 2)).
Proof.
  unfold demo_calls. cbn [protocol]. split; [done|].
  intros fds1 k1 H1. vm_compute in H1. injection H1 as <- <-.
  split.
  { intros f [= <-]. eexists 0%nat, _. split; reflexivity. }
  intros fds2 k2 H2. vm_compute in H2. injection H2 as <- <-.
  split.
  { split; [lia|]. intros f [= <-]. eexists 1%nat, _. split; reflexivity. }
  done.
Qed.

(** X11. The invariant of the driver over sessions that follow the
    protocol. From the state after module load, a sequence of open, ioctl,
    write and read calls in which every ioctl is made on a file that still
    points to its slot and every write and read on a file bound to a channel
    returns, and after it every channel's buffer has 128 bytes and a length
    of at most 128, the slot list is well formed with one slot per minor
    number, every slot's channel list is well formed with distinct ids,
    [channel_count] is the number of channels of the slot and at most
    [2^20], and the [private_data] of every open file points to a live
    object. *)
Theorem run_invariant alloc cs :
  protocol cs [] (boot alloc) →
  ∃ fds k, run cs [] (boot alloc) = Ret fds k ∧
           kernel_wf k ∧ Forall (file_ok k) fds.
Proof.
  intros Hp. apply run_protocol; [apply boot_wf|constructor|done].
Qed.

(** Open, select and write, from boot. *)
Lemma run_invariant_witness :
  ∃ fds k, run demo_calls [] (boot (plenty 2)) = Ret fds k ∧
           kernel_wf k ∧ Forall (file_ok k) fds.
Proof.
  apply (run_invariant (plenty 2) demo_calls), demo_calls_protocol.
Defined.






